(** * libfirm backend specification scripts: registers.py, beops.py and the
      SPARC description ir/be/sparc/spec.py, embedded in Rocq.

    The scripts are Python 2.  Objects that the scripts compare or mutate by
    reference (registers, opcode classes) carry an object identity; plain
    data (strings, lists, tuples) are values.  Exceptions are results of an
    error monad; the two module-level registries are threaded as state. *)

From Stdlib Require Import ZArith Ascii String DecimalString.
From stdpp Require Import base option list strings gmap.

Local Open Scope string_scope.
Set Warnings "-register-all".
Set Default Proof Using "Type".

(* ================================================================== *)
(** * Python runtime: exceptions, outcomes, the interpreter state      *)
(* ================================================================== *)

(** The exceptions the modelled code can raise.  [MalformedSpecError] is the
    one raised by the validation pass of irops (see [verify_node]). *)
Inductive exn : Type :=
| Exception (msg : string)           (* raise Exception(msg)            *)
| ValueError                         (* list.index(x), x not in list    *)
| AttributeError (attr : string)     (* read of an attribute never set  *)
| MalformedSpecError (opcode field : string).

Inductive outcome (A : Type) : Type :=
| Ok (a : A)
| Raised (e : exn).
Arguments Ok {A} a.
Arguments Raised {A} e.

#[global] Instance outcome_ret : MRet outcome := λ A a, Ok a.
#[global] Instance outcome_bind : MBind outcome := λ A B f m,
  match m with
  | Ok a => f a
  | Raised e => Raised e
  end.
#[global] Instance outcome_fmap : FMap outcome := λ A B f m,
  match m with
  | Ok a => Ok (f a)
  | Raised e => Raised e
  end.

(** [for x in xs: acc = body(acc, x)] where the body may raise. *)
Fixpoint for_each {A B : Type} (body : A → B → outcome A) (acc : A)
    (xs : list B) : outcome A :=
  match xs with
  | [] => Ok acc
  | x :: rest => acc' ← body acc x; for_each body acc' rest
  end.

(** Evaluation of a sequence of fallible computations, left to right. *)
Fixpoint sequence {A : Type} (ms : list (outcome A)) : outcome (list A) :=
  match ms with
  | [] => Ok []
  | m :: rest => a ← m; as' ← sequence rest; Ok (a :: as')
  end.

(** [str.upper()] on a byte string: only the letters a-z change. *)
Definition upper_ascii (c : ascii) : ascii :=
  let n := nat_of_ascii c in
  if (97 <=? n)%nat && (n <=? 122)%nat then ascii_of_nat (n - 32) else c.

Fixpoint upper (s : string) : string :=
  match s with
  | EmptyString => EmptyString
  | String c rest => String (upper_ascii c) (upper rest)
  end.

(** ["%s" % num] for a non-negative int. *)
Definition str_of_nat (n : nat) : string :=
  NilEmpty.string_of_uint (Nat.to_uint n).

(* ================================================================== *)
(** * scripts/registers.py                                              *)
(* ================================================================== *)

(** [class Register(object): pass] -- an object with one attribute, [name].
    Two registers created by two calls of [reg] are different objects even
    when their names agree; [reg_oid] is that identity. *)
Record Register : Type := {
  reg_oid : nat;
  reg_name : string
}.

(** A register class is a Python class whose body binds [mode],
    [registers] and optionally [flags]; [cls_name] is the attribute [name],
    absent until [prepare_class] has run. *)
Record RegClass : Type := {
  cls_pyname : string;                 (* __name__ *)
  cls_name : option string;            (* name     *)
  cls_mode : string;
  cls_flags : option (list string);
  cls_registers : list Register
}.

(** Module state: [register_classes = []] of registers.py and the allocator
    of object identities. *)
Record pystate : Type := {
  register_classes : list RegClass;
  next_oid : nat
}.

Definition initial_state : pystate :=
  {| register_classes := []; next_oid := 0 |}.

(** State and exceptions. *)
Definition M (A : Type) : Type := pystate → outcome (A * pystate).

#[global] Instance M_ret : MRet M := λ A a st, Ok (a, st).
#[global] Instance M_bind : MBind M := λ A B f m st,
  match m st with
  | Ok (a, st') => f a st'
  | Raised e => Raised e
  end.

(** [map(f, xs)] for an effectful [f]. *)
Fixpoint mapM {A B : Type} (f : A → M B) (xs : list A) : M (list B) :=
  match xs with
  | [] => mret []
  | x :: rest => y ← f x; ys ← mapM f rest; mret (y :: ys)
  end.

Definition prepare_class (cls : RegClass) : RegClass :=
  {| cls_pyname := cls_pyname cls;
     cls_name := Some (cls_pyname cls);
     cls_mode := cls_mode cls;
     cls_flags := cls_flags cls;
     cls_registers := cls_registers cls |}.

(** The class decorator: no check of any kind, the class is named and
    appended to the registry. *)
Definition regclass (cls : RegClass) : M RegClass := λ st,
  let cls' := prepare_class cls in
  Ok (cls', {| register_classes := register_classes st ++ [cls'];
               next_oid := next_oid st |}).

Definition reg (name : string) : M Register := λ st,
  Ok ({| reg_oid := next_oid st; reg_name := name |},
      {| register_classes := register_classes st;
         next_oid := S (next_oid st) |}).

(** [x == y] on two [Register] objects: the class defines no [__eq__], so
    this is object identity. *)
Definition reg_is (x y : Register) : bool :=
  Nat.eqb (reg_oid x) (reg_oid y).

(** [l.index(x)]: position of the first element equal to [x]. *)
Fixpoint list_index_from (k : nat) (l : list Register) (x : Register)
    : outcome nat :=
  match l with
  | [] => Raised ValueError
  | y :: rest => if reg_is y x then Ok k else list_index_from (S k) rest x
  end.

Definition list_index (l : list Register) (x : Register) : outcome nat :=
  list_index_from 0 l x.

(** Read of [cls.name]. *)
Definition get_name (cls : RegClass) : outcome string :=
  match cls_name cls with
  | Some n => Ok n
  | None => Raised (AttributeError "name")
  end.

(** One iteration of the loop of [make_limit_bitset]. *)
Definition limit_bucket (cls : RegClass) (register : Register) (index : nat)
    (res : string) (b : nat) : outcome string :=
  let res := if (0 <? b)%nat then res +:+ ", " else res in
  if (b * 32 <=? index)%nat && (index <? (b + 1) * 32)%nat then
    n ← get_name cls;
    if (0 <? b)%nat then
      Ok (res +:+ "(1 << (REG_" +:+ upper n +:+ "_"
              +:+ upper (reg_name register) +:+ " % 32))")
    else
      Ok (res +:+ "(1 << REG_" +:+ upper n +:+ "_"
              +:+ upper (reg_name register) +:+ ")")
  else
    Ok (res +:+ "0").

Definition make_limit_bitset (cls : RegClass) (register : Register)
    : outcome string :=
  let n_regs := length (cls_registers cls) in
  let n_buckets := ((n_regs + 31) / 32)%nat in
  index ← list_index (cls_registers cls) register;
  res ← for_each (limit_bucket cls register index) "{ " (seq 0 n_buckets);
  Ok (res +:+ " }").

(** ** Reading the literal

    The text produced is a C initializer: a brace-enclosed, comma-separated
    list of words, each word one of three expressions.  [render_literal]
    writes such a list; [eval_word] is the value of a word in C once the
    named constant has a value. *)
Inductive word_expr : Type :=
| WZero                         (* 0                     *)
| WShift (c : string)           (* (1 << c)              *)
| WShiftMod (c : string).       (* (1 << (c % 32))       *)

Definition render_word (w : word_expr) : string :=
  match w with
  | WZero => "0"
  | WShift c => "(1 << " +:+ c +:+ ")"
  | WShiftMod c => "(1 << (" +:+ c +:+ " % 32))"
  end.

Fixpoint render_words (ws : list word_expr) : string :=
  match ws with
  | [] => ""
  | [w] => render_word w
  | w :: rest => render_word w +:+ ", " +:+ render_words rest
  end.

Definition render_literal (ws : list word_expr) : string :=
  "{ " +:+ render_words ws +:+ " }".

Definition eval_word (env : string → Z) (w : word_expr) : Z :=
  match w with
  | WZero => 0
  | WShift c => Z.shiftl 1 (env c)
  | WShiftMod c => Z.shiftl 1 (env c mod 32)
  end.

(** The constant the literal refers to. *)
Definition reg_constant (clsname regname : string) : string :=
  "REG_" +:+ upper clsname +:+ "_" +:+ upper regname.

(** The word at position [b] for a register of index [index]. *)
Definition limit_word (c : string) (index b : nat) : word_expr :=
  if (b * 32 <=? index)%nat && (index <? (b + 1) * 32)%nat then
    if (0 <? b)%nat then WShiftMod c else WShift c
  else WZero.

Definition limit_words (c : string) (index n_buckets : nat)
    : list word_expr :=
  map (limit_word c index) (seq 0 n_buckets).

(** What one iteration of the loop appends to the text, and what the
    iterations over [bs] append together. *)
Definition piece (c : string) (index b : nat) : string :=
  (if (0 <? b)%nat then ", " else "") +:+ render_word (limit_word c index b).

Fixpoint pieces (c : string) (index : nat) (bs : list nat) : string :=
  match bs with
  | [] => ""
  | b :: rest => piece c index b +:+ pieces c index rest
  end.

(* ================================================================== *)
(** * scripts/beops.py                                                  *)
(* ================================================================== *)

(** [req.kind] holds one of the three module-level objects [singlereq],
    [producestackreq] (functions) and [noreq] (the sentinel itself). *)
Inductive req_kind : Type :=
| kind_singlereq
| kind_producestackreq
| kind_noreq.

(** [class RegisterReq(object): pass]; [cls] and [reg] are never set on
    the sentinel [noreq]. *)
Record RegisterReq : Type := {
  req_kind_of : req_kind;
  req_cls : option RegClass;
  req_reg : option Register
}.

(** Python values that occur as attribute values in a backend description. *)
Inductive value : Type :=
| VNone
| VStr (s : string)
| VList (items : list value)
| VTuple (items : list value)
| VRegClass (c : RegClass)
| VReq (r : RegisterReq)
| VConstructor (c : Constructor)
with Constructor : Type :=
| Build_Constructor (name attr custominit : string) (in_reqs ins : value).

Definition c_name (c : Constructor) : string :=
  match c with Build_Constructor n _ _ _ _ => n end.
Definition c_attr (c : Constructor) : string :=
  match c with Build_Constructor _ a _ _ _ => a end.
Definition c_custominit (c : Constructor) : string :=
  match c with Build_Constructor _ _ i _ _ => i end.
Definition c_in_reqs (c : Constructor) : value :=
  match c with Build_Constructor _ _ _ r _ => r end.
Definition c_ins (c : Constructor) : value :=
  match c with Build_Constructor _ _ _ _ i => i end.

(** [def constructor(name, attr = "", custominit = "", in_reqs = [],
    ins = [])]: the five arguments are stored, nothing is compared. *)
Definition constructor (name attr custominit : string) (in_reqs ins : value)
    : Constructor :=
  Build_Constructor name attr custominit in_reqs ins.

(** The call with the keyword defaults filled in. *)
Definition constructor_default (name : string) : Constructor :=
  constructor name "" "" (VList []) (VList []).

(** The scan of [singlereq]: [for r in regclass.registers: if r.name ==
    regname: reg = r; break].  (The [print] of each visited register is a
    debugging trace on stdout and is not modelled.) *)
Fixpoint scan_registers (registers : list Register) (regname : string)
    : option Register :=
  match registers with
  | [] => None
  | r :: rest =>
      if String.eqb (reg_name r) regname then Some r
      else scan_registers rest regname
  end.

Definition singlereq (regclass : RegClass) (regname : string)
    : outcome RegisterReq :=
  match scan_registers (cls_registers regclass) regname with
  | None =>
      n ← get_name regclass;
      Raised (Exception ("No register named " +:+ regname
                         +:+ " in regclass " +:+ n))
  | Some reg =>
      Ok {| req_kind_of := kind_singlereq;
            req_cls := Some regclass;
            req_reg := Some reg |}
  end.

Definition producestackreq (regclass : RegClass) (regname : string)
    : outcome RegisterReq :=
  req ← singlereq regclass regname;
  Ok {| req_kind_of := kind_producestackreq;
        req_cls := req_cls req;
        req_reg := req_reg req |}.

Definition noreq : RegisterReq :=
  {| req_kind_of := kind_noreq; req_cls := None; req_reg := None |}.

(* ================================================================== *)
(** * Python classes as opcode descriptions                             *)
(* ================================================================== *)

(** ** Class bodies

    The right-hand side of an assignment is a Python [testlist]: one or
    more expressions separated by commas, with an optional trailing comma.
    A single expression without trailing comma denotes its own value;
    every other form denotes a tuple. *)
Inductive expr : Type :=
| EConst (v : value)                (* literal, or a name bound to an object *)
| ECall (result : outcome value)    (* call of one of the functions above    *)
| EList (items : list expr).        (* [ e1, ..., en ]                       *)

Inductive stmt : Type :=
| Assign (target : string) (rhs : list expr) (trailing_comma : bool).

Fixpoint eval_expr (e : expr) : outcome value :=
  match e with
  | EConst v => Ok v
  | ECall result => result
  | EList items => VList <$> sequence (map eval_expr items)
  end.

Definition eval_testlist (rhs : list expr) (trailing_comma : bool)
    : outcome value :=
  match rhs, trailing_comma with
  | [e], false => eval_expr e
  | _, _ => VTuple <$> sequence (map eval_expr rhs)
  end.

Definition exec_stmt (dict : gmap string value) (s : stmt)
    : outcome (gmap string value) :=
  match s with
  | Assign target rhs trailing_comma =>
      v ← eval_testlist rhs trailing_comma;
      Ok (<[target := v]> dict)
  end.

(** The names a class body assigns. *)
Definition assigned (body : list stmt) : list string :=
  (λ s, match s with Assign target _ _ => target end) <$> body.

(** ** Class objects

    [class C(B): body] creates a class with its own dictionary and a link
    to its base; every chain ends in [object]. *)
Inductive pyclass : Type :=
| PyObject
| PyClass (pyname : string) (base : pyclass) (dict : gmap string value).

Definition class_def (pyname : string) (base : pyclass) (body : list stmt)
    : outcome pyclass :=
  dict ← for_each exec_stmt ∅ body;
  Ok (PyClass pyname base dict).

(** Attribute lookup [C.f]: the first dictionary on the way from the class
    to [object] that binds [f]. *)
Fixpoint getattr (c : pyclass) (f : string) : option value :=
  match c with
  | PyObject => None
  | PyClass _ base dict =>
      match dict !! f with
      | Some v => Some v
      | None => getattr base f
      end
  end.

Definition own_dict (c : pyclass) : gmap string value :=
  match c with
  | PyObject => ∅
  | PyClass _ _ dict => dict
  end.

Definition class_pyname (c : pyclass) : string :=
  match c with
  | PyObject => "object"
  | PyClass n _ _ => n
  end.

(** The base chain as a linear sequence, root first. *)
Fixpoint base_chain (c : pyclass) : list (gmap string value) :=
  match c with
  | PyObject => []
  | PyClass _ base dict => base_chain base ++ [dict]
  end.

(** The merge of section 4.3 in the words of the specification: one level
    applied over the record accumulated so far, a field set at the level
    replacing the accumulated one. *)
Definition merge (base override : gmap string value) : gmap string value :=
  override ∪ base.

Definition merge_chain (root : gmap string value) (c : pyclass)
    : gmap string value :=
  foldl merge root (base_chain c).

(* ================================================================== *)
(** * ir/be/sparc/spec.py: register classes                             *)
(* ================================================================== *)

Definition arch : string := "sparc".

Definition declare_gp : M RegClass :=
  registers ← mapM reg [
    "g0"; "g1"; "g2"; "g3"; "g4"; "g5"; "g6"; "g7";
    "o0"; "o1"; "o2"; "o3"; "o4"; "o5"; "sp"; "o7";
    "l0"; "l1"; "l2"; "l3"; "l4"; "l5"; "l6"; "l7";
    "i0"; "i1"; "i2"; "i3"; "i4"; "i5"; "fp"; "i7" ];
  regclass {| cls_pyname := "gp"; cls_name := None; cls_mode := "mode_Iu";
              cls_flags := None; cls_registers := registers |}.

Definition declare_fp : M RegClass :=
  registers ← mapM reg ((λ num, "f" +:+ str_of_nat num) <$> seq 0 32);
  regclass {| cls_pyname := "fp"; cls_name := None; cls_mode := "mode_F";
              cls_flags := None; cls_registers := registers |}.

Definition declare_flags : M RegClass :=
  r ← reg "flags";
  regclass {| cls_pyname := "flags"; cls_name := None; cls_mode := "mode_Bu";
              cls_flags := Some ["manual_ra"]; cls_registers := [r] |}.

Definition declare_fpflags : M RegClass :=
  r ← reg "fpflags";
  regclass {| cls_pyname := "fpflags"; cls_name := None;
              cls_mode := "mode_Bu";
              cls_flags := Some ["manual_ra"]; cls_registers := [r] |}.

(** The four class statements in the order of the file. *)
Definition declare_register_classes
    : M (RegClass * RegClass * RegClass * RegClass) :=
  gp ← declare_gp;
  fp ← declare_fp;
  flags ← declare_flags;
  fpflags ← declare_fpflags;
  mret (gp, fp, flags, fpflags).

Definition empty_class : RegClass :=
  {| cls_pyname := ""; cls_name := None; cls_mode := "";
     cls_flags := None; cls_registers := [] |}.

(** The objects the four names are bound to once the statements have run
    from the initial module state (see [register_classes_declared]). *)
Definition declared_classes : RegClass * RegClass * RegClass * RegClass :=
  Eval vm_compute in
    match declare_register_classes initial_state with
    | Ok (cs, _) => cs
    | Raised _ => (empty_class, empty_class, empty_class, empty_class)
    end.

Definition state_after_classes : pystate :=
  Eval vm_compute in
    match declare_register_classes initial_state with
    | Ok (_, st) => st
    | Raised _ => initial_state
    end.

Definition gp : RegClass := Eval vm_compute in declared_classes.1.1.1.
Definition fp : RegClass := Eval vm_compute in declared_classes.1.1.2.
Definition flags : RegClass := Eval vm_compute in declared_classes.1.2.
Definition fpflags : RegClass := Eval vm_compute in declared_classes.2.
Definition _flagscls : RegClass := flags.

(** The register object bound to slot 14 of [gp]. *)
Definition sp : Register := {| reg_oid := 14; reg_name := "sp" |}.

(* ================================================================== *)
(** * ir/be/sparc/spec.py: opcode classes                               *)
(* ================================================================== *)

(** Shorthands for the expressions of the class bodies. *)
Definition str (s : string) : expr := EConst (VStr s).
Definition strs (l : list string) : expr := EList (str <$> l).
Definition cls (c : RegClass) : expr := EConst (VRegClass c).
Definition call_singlereq (c : RegClass) (n : string) : expr :=
  ECall (VReq <$> singlereq c n).
Definition call_producestackreq (c : RegClass) (n : string) : expr :=
  ECall (VReq <$> producestackreq c n).
Definition call_constructor (name attr custominit : string)
    (in_reqs ins : value) : expr :=
  ECall (Ok (VConstructor (constructor name attr custominit in_reqs ins))).
Definition variadic : expr := str "...".
Definition newline : string := String (ascii_of_nat 10) EmptyString.
Definition tab : string := String (ascii_of_nat 9) EmptyString.

(** [target = e], an assignment without trailing comma. *)
Notation "t '::=' e" := (Assign t [e] false) (at level 70, no associativity).

Definition SparcBase : outcome pyclass :=
  class_def "SparcBase" PyObject [
    "attr_struct" ::= str "sparc_attr_t" ].

Definition Start : outcome pyclass :=
  base ← SparcBase;
  class_def "Start" base [
    "beflags"   ::= strs ["schedule_first"];
    "pinned"    ::= str "yes";
    "outs_reqs" ::= variadic;
    "ins"       ::= EList [];
    "emit"      ::= EConst VNone ].

Definition JumpBase : outcome pyclass :=
  base ← SparcBase;
  class_def "JumpBase" base [
    "pinned"   ::= str "yes";
    "flags"    ::= strs ["cfopcode"];
    "out_reqs" ::= EList [EConst (VReq noreq)];
    "mode"     ::= str "mode_X" ].

Definition BranchBase_body : list stmt := [
  "flags"       ::= strs ["cfopcode"; "forking"];
  "beflags"     ::= strs ["has_delay_slot"];
  "attr_struct" ::= str "sparc_jmp_cond_attr_t";
  "ins"         ::= strs ["flags"];
  "outs"        ::= strs ["false"; "true"];
  "out_reqs"    ::= EList [EConst (VReq noreq); EConst (VReq noreq)] ].

Definition BranchBase : outcome pyclass :=
  base ← JumpBase;
  class_def "BranchBase" base BranchBase_body.

Definition Ba : outcome pyclass :=
  base ← JumpBase;
  class_def "Ba" base [
    "beflags" ::= strs ["simple_jump"] ].

Definition Return : outcome pyclass :=
  base ← JumpBase;
  class_def "Return" base [
    "beflags" ::= strs ["has_delay_slot"];
    "in_reqs" ::= variadic;
    "constructors" ::= EList [
      call_constructor "imm"
        "ir_entity *entity, int32_t offset"
        "sparc_set_attr_imm(res, entity, offset);"
        (VList []) (VList []);
      ECall (Ok (VConstructor (constructor_default "reg"))) ] ].

Definition Call_body : list stmt := [
  "beflags"     ::= strs ["has_delay_slot"];
  "pinned"      ::= str "exception";
  "in_reqs"     ::= variadic;
  "out_reqs"    ::= variadic;
  "outs"        ::= strs ["M"; "stack"; "first_result"];
  "attr_struct" ::= str "sparc_call_attr_t";
  "constructors" ::= EList [
    call_constructor "imm"
      "ir_type *call_type, ir_entity *entity, int32_t offset, bool aggregate_return"
      ("sparc_set_attr_imm(res, entity, offset);" +:+ newline +:+
       tab +:+ "if (aggregate_return) arch_add_irn_flags(res, (arch_irn_flags_t)sparc_arch_irn_flag_aggregate_return);")
      (VList []) (VList []);
    call_constructor "reg"
      "ir_type *call_type, bool aggregate_return"
      "if (aggregate_return) arch_add_irn_flags(res, (arch_irn_flags_t)sparc_arch_irn_flag_aggregate_return);"
      (VList []) (VList []) ] ].

Definition Call : outcome pyclass :=
  base ← JumpBase;
  class_def "Call" base Call_body.

Definition SwitchJmp_body : list stmt := [
  "in_reqs"     ::= EList [cls gp];
  "out_reqs"    ::= variadic;
  "attr_struct" ::= str "sparc_switch_jmp_attr_t";
  "constructors" ::= EList [
    call_constructor ""
      "const ir_switch_table *table, ir_entity *jump_table" ""
      (VList []) (VList []) ] ].

Definition SwitchJmp : outcome pyclass :=
  base ← BranchBase;
  class_def "SwitchJmp" base SwitchJmp_body.

Definition Bicc : outcome pyclass :=
  base ← BranchBase;
  class_def "Bicc" base [
    "attr"      ::= str "ir_relation relation, bool is_unsigned";
    "init_attr" ::= str "init_sparc_jmp_cond_attr(res, relation, is_unsigned);";
    "in_reqs"   ::= EList [cls _flagscls] ].

Definition fbfcc : outcome pyclass :=
  base ← BranchBase;
  class_def "fbfcc" base [
    "attr"      ::= str "ir_relation relation";
    "init_attr" ::= str "init_sparc_jmp_cond_attr(res, relation, false);";
    "in_reqs"   ::= EList [cls fpflags] ].

(** The module-level list shared by three of the bases below. *)
Definition _binop_constructors : value :=
  VList [
    VConstructor (constructor "imm"
      "ir_entity *immediate_entity, int32_t immediate_value"
      "sparc_set_attr_imm(res, immediate_entity, immediate_value);"
      (VList [VRegClass gp]) (VList [VStr "left"]));
    VConstructor (constructor "reg" "" ""
      (VList [VRegClass gp; VRegClass gp])
      (VList [VStr "left"; VStr "right"])) ].

Definition BinopBase : outcome pyclass :=
  base ← SparcBase;
  class_def "BinopBase" base [
    "beflags"      ::= strs ["rematerializable"];
    "mode"         ::= str (cls_mode gp);
    "out_reqs"     ::= EList [cls gp];
    "constructors" ::= EConst _binop_constructors ].

Definition BinopCCBase : outcome pyclass :=
  base ← SparcBase;
  class_def "BinopCCBase" base [
    "beflags"      ::= strs ["rematerializable"];
    "outs"         ::= strs ["res"; "flags"];
    "out_reqs"     ::= EList [cls gp; cls _flagscls];
    "constructors" ::= EConst _binop_constructors ].

Definition BinopCCZeroBase : outcome pyclass :=
  base ← SparcBase;
  class_def "BinopCCZeroBase" base [
    "beflags"      ::= strs ["rematerializable"];
    "mode"         ::= str (cls_mode _flagscls);
    "out_reqs"     ::= EList [cls _flagscls];
    "constructors" ::= EConst _binop_constructors ].

Definition BinopXBase : outcome pyclass :=
  base ← SparcBase;
  class_def "BinopXBase" base [
    "out_reqs" ::= EList [cls gp];
    "mode"     ::= str (cls_mode gp);
    "constructors" ::= EList [
      call_constructor "imm"
        "ir_entity *immediate_entity, int32_t immediate_value"
        "sparc_set_attr_imm(res, immediate_entity, immediate_value);"
        (VList [VRegClass gp; VRegClass _flagscls])
        (VList [VStr "left"; VStr "carry"]);
      call_constructor "reg" "" ""
        (VList [VRegClass gp; VRegClass gp; VRegClass _flagscls])
        (VList [VStr "left"; VStr "right"; VStr "carry"]) ] ].

(** A class whose body is the single assignment of [emit]. *)
Definition emitting (pyname : string) (base : outcome pyclass)
    (template : string) : outcome pyclass :=
  b ← base;
  class_def pyname b [ "emit" ::= str template ].

Definition Add : outcome pyclass :=
  emitting "Add" BinopBase "add %S0, %SI1, %D0".
Definition AddCC : outcome pyclass :=
  emitting "AddCC" BinopCCBase "addcc %S0, %SI1, %D0".
Definition AddCCZero : outcome pyclass :=
  emitting "AddCCZero" BinopCCZeroBase "addcc %S0, %SI1, %%g0".
Definition AddX : outcome pyclass :=
  emitting "AddX" BinopXBase "addx %S0, %SI1, %D0".

(** The body of [AddSP], assignment by assignment; the first four lines end
    in a comma, the last two do not. *)
Definition AddSP_body : list stmt := [
  Assign "in_reqs"  [EList [call_singlereq gp "sp"; cls gp]] true;
  Assign "out_reqs" [EList [call_producestackreq gp "sp"]] true;
  Assign "ins"      [strs ["stack"; "size"]] true;
  Assign "outs"     [strs ["stack"]] true;
  Assign "mode"     [str (cls_mode gp)] false;
  Assign "emit"     [str "add %S0, %S1, %D0"] false ].

Definition AddSP : outcome pyclass :=
  base ← SparcBase;
  class_def "AddSP" base AddSP_body.

Definition Sub : outcome pyclass :=
  emitting "Sub" BinopBase "sub %S0, %SI1, %D0".
Definition SubCC : outcome pyclass :=
  emitting "SubCC" BinopCCBase "subcc %S0, %SI1, %D0".
Definition SubCCZero : outcome pyclass :=
  emitting "SubCCZero" BinopCCZeroBase "subcc %S0, %SI1, %%g0".
Definition SubX : outcome pyclass :=
  emitting "SubX" BinopXBase "subx %S0, %SI1, %D0".
Definition Sll : outcome pyclass :=
  emitting "Sll" BinopBase "sll %S0, %SI1, %D0".
Definition Srl : outcome pyclass :=
  emitting "Srl" BinopBase "srl %S0, %SI1, %D0".
Definition Sra : outcome pyclass :=
  emitting "Sra" BinopBase "sra %S0, %SI1, %D0".
Definition And : outcome pyclass :=
  emitting "And" BinopBase "and %S0, %SI1, %D0".
Definition AndN : outcome pyclass :=
  emitting "AndN" BinopBase "andn %S0, %SI1, %D0".

(* ================================================================== *)
(** * irops: assembly and validation of opcode descriptions             *)
(* ================================================================== *)

(** A class statement of the description together with the mark left by
    the [@op] decorator. *)
Record declared : Type := {
  d_class : pyclass;
  d_is_op : bool
}.

Definition declare (c : outcome pyclass) (is_op : bool) : outcome declared :=
  (λ c, {| d_class := c; d_is_op := is_op |}) <$> c.

(** An assembled opcode description: the opcode name and the attribute set
    after the base chain has been merged. *)
Record NodeSpec : Type := {
  node_name : string;
  node_attrs : gmap string value
}.

(** Modelled from the spec: the root default of irops, which is not part of
    the sources at hand.  Section 4.3: the base chain ends "at a root default
    (empty flags, empty operand lists, no emission template, no
    constructors)". *)
Definition root_default : gmap string value :=
  <["flags" := VList []]> (
  <["ins" := VList []]> (
  <["outs" := VList []]> (
  <["in_reqs" := VList []]> (
  <["out_reqs" := VList []]> (
  <["emit" := VNone]> (
  <["constructors" := VList []]> ∅)))))).

(** Modelled from the spec: rule (1) of section 4.3, "if both outputs and
    out-requirements are fixed lists, their lengths match (and symmetrically
    for inputs)".  Anything that is not a list, the variadic marker ["..."]
    included, is exempt. *)
Definition lengths_match (names reqs : option value) : bool :=
  match names, reqs with
  | Some (VList xs), Some (VList ys) => Nat.eqb (length xs) (length ys)
  | _, _ => true
  end.

(** Modelled from the spec: rule (2) of section 4.3, "every Constructor's
    locally declared operand-requirement list length matches its locally
    declared named-operand list length". *)
Definition constructor_ok (v : value) : bool :=
  match v with
  | VConstructor c => lengths_match (Some (c_ins c)) (Some (c_in_reqs c))
  | _ => true
  end.

Definition constructors_ok (v : option value) : bool :=
  match v with
  | Some (VList cs) => forallb constructor_ok cs
  | _ => true
  end.

Definition is_ident_start (c : ascii) : bool :=
  let n := nat_of_ascii c in
  ((65 <=? n)%nat && (n <=? 90)%nat) || ((97 <=? n)%nat && (n <=? 122)%nat)
  || (n =? 95)%nat.

Definition is_ident_char (c : ascii) : bool :=
  let n := nat_of_ascii c in
  is_ident_start c || ((48 <=? n)%nat && (n <=? 57)%nat).

Fixpoint all_chars (p : ascii → bool) (s : string) : bool :=
  match s with
  | EmptyString => true
  | String c rest => p c && all_chars p rest
  end.

Definition is_identifier (s : string) : bool :=
  match s with
  | EmptyString => false
  | String c rest => is_ident_start c && all_chars is_ident_char rest
  end.

(** Modelled from the spec: rule (3) of section 4.3, "attribute-struct tag,
    if present, is a non-empty identifier". *)
Definition attr_struct_ok (v : option value) : bool :=
  match v with
  | None | Some VNone => true
  | Some (VStr s) => is_identifier s
  | Some _ => false
  end.

(** Modelled from the spec: the validation of irops, which is not part of
    the sources at hand.  Section 4.3: the three rules are checked after the
    merge and "violations fail with MalformedSpecError naming the offending
    opcode and field". *)
Definition verify_node (opcode : string) (attrs : gmap string value)
    : outcome unit :=
  if negb (lengths_match (attrs !! "outs") (attrs !! "out_reqs")) then
    Raised (MalformedSpecError opcode "out_reqs")
  else if negb (lengths_match (attrs !! "ins") (attrs !! "in_reqs")) then
    Raised (MalformedSpecError opcode "in_reqs")
  else if negb (constructors_ok (attrs !! "constructors")) then
    Raised (MalformedSpecError opcode "constructors")
  else if negb (attr_struct_ok (attrs !! "attr_struct")) then
    Raised (MalformedSpecError opcode "attr_struct")
  else Ok ().

(** Modelled from the spec: the assembly of one opcode description by irops
    (not part of the sources at hand).  Section 4.3: the fields set at each
    level of the base chain are applied root to leaf over the root default,
    then the result is validated; the bare name is the name of the class. *)
Definition assemble (c : pyclass) : outcome NodeSpec :=
  let attrs := merge_chain root_default c in
  _ ← verify_node (class_pyname c) attrs;
  Ok {| node_name := class_pyname c; node_attrs := attrs |}.

(** A count mismatch in an attribute set, and the field it is reported
    under: named outputs against output requirements, named inputs against
    input requirements, or the two lists of one constructor. *)
Inductive mismatch (attrs : gmap string value) : string → Prop :=
| mismatch_outs (xs ys : list value) :
    attrs !! "outs" = Some (VList xs) →
    attrs !! "out_reqs" = Some (VList ys) →
    length xs ≠ length ys →
    mismatch attrs "out_reqs"
| mismatch_ins (xs ys : list value) :
    attrs !! "ins" = Some (VList xs) →
    attrs !! "in_reqs" = Some (VList ys) →
    length xs ≠ length ys →
    mismatch attrs "in_reqs"
| mismatch_constructor (cs : list value) (k : Constructor)
    (xs ys : list value) :
    attrs !! "constructors" = Some (VList cs) →
    VConstructor k ∈ cs →
    c_ins k = VList xs →
    c_in_reqs k = VList ys →
    length xs ≠ length ys →
    mismatch attrs "constructors".

(** The description [assemble] returns when it returns one. *)
Definition spec_of (d : declared) : NodeSpec :=
  {| node_name := class_pyname (d_class d);
     node_attrs := merge_chain root_default (d_class d) |}.

(** References to the opcode objects: position in the namespace. *)
Fixpoint partition_from (k : nat) (namespace : list declared)
    : list nat * list nat :=
  match namespace with
  | [] => ([], [])
  | d :: rest =>
      let (concrete, abstract) := partition_from (S k) rest in
      if d_is_op d then (k :: concrete, abstract)
      else (concrete, k :: abstract)
  end.

(** Modelled from the spec: [prepare_nodes] of irops, which is not part of
    the sources at hand.  Sections 4.3 and 4.4: every declared description
    is assembled and validated, the first violation aborting the pass, and
    the descriptions are partitioned into those decorated as opcodes and
    the pure bases, both in declaration order.  The result are two lists of
    references into the store of opcode objects. *)
Definition prepare_nodes (namespace : list declared)
    : outcome (list nat * list nat * gmap nat NodeSpec) :=
  specs ← sequence ((λ d, assemble (d_class d)) <$> namespace);
  Ok (partition_from 0 namespace, map_seq 0 specs).

(* ================================================================== *)
(** * ir/be/sparc/spec.py: the last five lines                          *)
(* ================================================================== *)

(** [node.name = "sparc_" + node.name] *)
Definition qualify (node : NodeSpec) : NodeSpec :=
  {| node_name := "sparc_" +:+ node_name node;
     node_attrs := node_attrs node |}.

(** [for node in nodes: node.name = "sparc_" + node.name], the assignment
    updating the object the reference points to. *)
Definition rename_nodes (nodes : list nat) (store : gmap nat NodeSpec)
    : gmap nat NodeSpec :=
  foldl (λ store node, alter qualify node store) store nodes.

(** What a reader of an exported list of references sees. *)
Definition deref (store : gmap nat NodeSpec) (refs : list nat)
    : list NodeSpec :=
  omap (λ r, store !! r) refs.

(** The four tables handed to the generator. *)
Record exports : Type := {
  exp_arch : string;
  exp_register_classes : list RegClass;
  exp_nodes : list NodeSpec;
  exp_abstract_nodes : list NodeSpec
}.

(** The last five lines on a description evaluated afresh: the store is the
    one [prepare_nodes] is modelled to build from the class statements.
    What the lines do to opcode objects that are already there, a second
    run included, is [run_pass] below. *)
Definition finalize (st : pystate) (namespace : list declared)
    : outcome exports :=
  '(nodes, abstract_nodes, store) ← prepare_nodes namespace;
  let store := rename_nodes nodes store in
  Ok {| exp_arch := arch;
        exp_register_classes := register_classes st;
        exp_nodes := deref store nodes;
        exp_abstract_nodes := deref store abstract_nodes |}.



(** [n] applications of the prefixing of the renaming loop. *)
Definition prefixed (n : nat) (name : string) : string :=
  Nat.iter n (String.append "sparc_") name.

(** The class statements of the SPARC description in the order of the file,
    with [true] for those under [@op]. *)
Definition sparc_namespace : outcome (list declared) :=
  sequence [
    declare SparcBase false; declare Start true;
    declare JumpBase false; declare BranchBase false;
    declare Ba true; declare Return true; declare Call true;
    declare SwitchJmp true; declare Bicc true; declare fbfcc true;
    declare BinopBase false; declare BinopCCBase false;
    declare BinopCCZeroBase false; declare BinopXBase false;
    declare Add true; declare AddCC true; declare AddCCZero true;
    declare AddX true; declare AddSP true;
    declare Sub true; declare SubCC true; declare SubCCZero true;
    declare SubX true;
    declare Sll true; declare Srl true; declare Sra true;
    declare And true; declare AndN true ].

(** The first two class statements of the file. *)
Definition sparc_prefix : outcome (list declared) :=
  sequence [ declare SparcBase false; declare Start true ].

(* ================================================================== *)
(** * Further descriptions the scripts accept                           *)
(* ================================================================== *)

(** A class statement whose register list names ["a"] twice:
    [registers = [ reg("a"), reg("a") ]]. *)
Definition declare_twice : M RegClass :=
  r0 ← reg "a";
  r1 ← reg "a";
  regclass {| cls_pyname := "twice"; cls_name := None; cls_mode := "mode_Iu";
              cls_flags := None; cls_registers := [r0; r1] |}.

(** The objects that statement creates when run after the four class
    statements of the SPARC description. *)
Definition a0 : Register := {| reg_oid := 66; reg_name := "a" |}.
Definition a1 : Register := {| reg_oid := 67; reg_name := "a" |}.
Definition twice : RegClass :=
  {| cls_pyname := "twice"; cls_name := Some "twice"; cls_mode := "mode_Iu";
     cls_flags := None; cls_registers := [a0; a1] |}.

(** A second class with the name and the register names of [gp], declared
    after the first, and the outcome of that statement. *)
Definition declare_gp_again : M RegClass := declare_gp.

Definition gp_again : outcome (RegClass * pystate) :=
  Eval vm_compute in declare_gp_again state_after_classes.


(** The first constructor of [_binop_constructors] with a second
    requirement added for its one named input, and an opcode class built
    on it. *)
Definition imm_two_requirements : Constructor :=
  constructor "imm"
    "ir_entity *immediate_entity, int32_t immediate_value"
    "sparc_set_attr_imm(res, immediate_entity, immediate_value);"
    (VList [VRegClass gp; VRegClass gp]) (VList [VStr "left"]).

Definition Lopsided_body : list stmt := [
  "constructors" ::= EList [ECall (Ok (VConstructor imm_two_requirements))] ].

Definition Lopsided : outcome pyclass :=
  base ← SparcBase;
  class_def "Lopsided" base Lopsided_body.

(** A store of two opcode objects and the references to them, as the
    loop over [nodes] finds them. *)
Definition two_nodes : gmap nat NodeSpec :=
  <[0 := {| node_name := "JumpBase"; node_attrs := ∅ |}]> (
  <[1 := {| node_name := "Ba"; node_attrs := ∅ |}]> ∅).

(* ================================================================== *)
(** * The shape of the class statements of a description                *)
(* ================================================================== *)



(** The body of [AddSP] with the register name of its two requirement
    calls left open; the description has ["sp"]. *)
Definition AddSP_body_for (regname : string) : list stmt := [
  Assign "in_reqs"  [EList [call_singlereq gp regname; cls gp]] true;
  Assign "out_reqs" [EList [call_producestackreq gp regname]] true;
  Assign "ins"      [strs ["stack"; "size"]] true;
  Assign "outs"     [strs ["stack"]] true;
  Assign "mode"     [str (cls_mode gp)] false;
  Assign "emit"     [str "add %S0, %S1, %D0"] false ].

Definition AddSP_for (regname : string) : outcome pyclass :=
  base ← SparcBase;
  class_def "AddSP" base (AddSP_body_for regname).

(** A class body never run through [regclass], and a class that differs
    from [twice] in the case of its names, in its mode and in its flags. *)
Definition undecorated : RegClass :=
  {| cls_pyname := "undecorated"; cls_name := None; cls_mode := "mode_Iu";
     cls_flags := None; cls_registers := [a0; a1] |}.

Definition TWICE : RegClass :=
  {| cls_pyname := "TWICE"; cls_name := Some "TWICE"; cls_mode := "mode_F";
     cls_flags := Some ["manual_ra"];
     cls_registers := [ {| reg_oid := 70; reg_name := "A" |};
                        {| reg_oid := 71; reg_name := "b" |} ] |}.

(** An opcode object after [k] assignments [node.name = "sparc_" +
    node.name]. *)
Definition qualified (k : nat) (node : NodeSpec) : NodeSpec :=
  {| node_name := prefixed k (node_name node);
     node_attrs := node_attrs node |}.

(* ================================================================== *)
(** * Properties                                                        *)
(* ================================================================== *)

(** ** Strings and the error monad *)

(** Closes [x ∉ [y1; ...; yn]] for distinct literals. *)
Ltac not_among :=
  let H := fresh "Hin" in
  intros H;
  repeat (apply elem_of_cons in H as [H | H]; [discriminate H |]);
  by apply elem_of_nil in H.

Lemma string_app_cons (x : ascii) (a b : string) :
  String x a +:+ b = String x (a +:+ b).
Proof. reflexivity. Qed.

Lemma string_app_assoc (a b c : string) : (a +:+ b) +:+ c = a +:+ (b +:+ c).
Proof.
  induction a as [|x a IH]; [done |]. rewrite !string_app_cons. by f_equal.
Qed.

Lemma string_app_nil_r (a : string) : a +:+ "" = a.
Proof.
  induction a as [|x a IH]; [done |]. rewrite string_app_cons. by f_equal.
Qed.

Lemma for_each_app {A B : Type} (body : A → B → outcome A) acc xs ys :
  for_each body acc (xs ++ ys) = acc' ← for_each body acc xs; for_each body acc' ys.
Proof.
  revert acc. induction xs as [|x xs IH]; intros acc; simpl; [done |].
  destruct (body acc x) as [acc' | e]; simpl; [apply IH | done].
Qed.

(** ** registers.py: [list.index] *)

Section index.
Context (x : Register).

Lemma list_index_from_first (l : list Register) (k i : nat) :
  l !! i = Some x →
  (∀ j y, j < i → l !! j = Some y → reg_oid y ≠ reg_oid x) →
  list_index_from k l x = Ok (k + i).
Proof.
  revert k i. induction l as [|y l IH]; intros k i Hi Hbefore; [done |].
  simpl. unfold reg_is. destruct i as [|i]; simpl in Hi.
  - injection Hi as ->. rewrite Nat.eqb_refl. f_equal. lia.
  - destruct (Nat.eqb_spec (reg_oid y) (reg_oid x)) as [Heq | _].
    + exfalso. by apply (Hbefore 0 y); [lia | |].
    + rewrite (IH (S k) i Hi); [f_equal; lia |].
      intros j z Hj Hz. apply (Hbefore (S j) z); [lia | done].
Qed.

Lemma list_index_from_inv (l : list Register) (k r : nat) :
  list_index_from k l x = Ok r →
  ∃ i y, r = k + i ∧ l !! i = Some y ∧ reg_oid y = reg_oid x.
Proof.
  revert k. induction l as [|y l IH]; intros k; [done |].
  simpl. unfold reg_is.
  destruct (Nat.eqb_spec (reg_oid y) (reg_oid x)) as [Heq | _].
  - intros [= <-]. exists 0, y. split; [lia | done].
  - intros (i & z & -> & Hz & Hid)%IH. exists (S i), z.
    split; [lia | done].
Qed.
End index.

(** ** registers.py: the literal of [make_limit_bitset] *)

Lemma limit_bucket_piece cls n register index res b :
  cls_name cls = Some n →
  limit_bucket cls register index res b
  = Ok (res +:+ piece (reg_constant n (reg_name register)) index b).
Proof.
  intros Hn. unfold limit_bucket, piece, limit_word, get_name, reg_constant.
  rewrite Hn.
  destruct ((b * 32 <=? index)%nat && (index <? (b + 1) * 32)%nat);
    destruct (0 <? b)%nat; simpl;
    rewrite ?string_app_assoc; reflexivity.
Qed.

Lemma for_each_limit_bucket cls n register index res bs :
  cls_name cls = Some n →
  for_each (limit_bucket cls register index) res bs
  = Ok (res +:+ pieces (reg_constant n (reg_name register)) index bs).
Proof.
  intros Hn. revert res. induction bs as [|b bs IH]; intros res; simpl.
  - by rewrite string_app_nil_r.
  - rewrite (limit_bucket_piece _ n) by done. simpl.
    rewrite IH. by rewrite string_app_assoc.
Qed.

Lemma pieces_positive c index (bs : list nat) b :
  Forall (λ b, 0 < b) (b :: bs) →
  pieces c index (b :: bs)
  = ", " +:+ render_words (limit_word c index <$> (b :: bs)).
Proof.
  revert b. induction bs as [|b' bs IH]; intros b Hpos.
  - apply Forall_cons in Hpos as [Hb _]. simpl. unfold piece.
    apply Nat.ltb_lt in Hb. rewrite Hb. by rewrite string_app_nil_r.
  - apply Forall_cons in Hpos as [Hb Hrest].
    change (pieces c index (b :: b' :: bs))
      with (piece c index b +:+ pieces c index (b' :: bs)).
    rewrite (IH b' Hrest). unfold piece.
    apply Nat.ltb_lt in Hb. rewrite Hb. simpl.
    by rewrite ?string_app_assoc.
Qed.

Lemma pieces_from_zero c index m :
  pieces c index (seq 0 m) = render_words (limit_words c index m).
Proof.
  unfold limit_words. destruct m as [|m]; [done |].
  simpl seq. destruct m as [|m]; [simpl; unfold piece; simpl;
    by rewrite string_app_nil_r |].
  change (pieces c index (0 :: seq 1 (S m)))
    with (piece c index 0 +:+ pieces c index (seq 1 (S m))).
  simpl seq. rewrite pieces_positive.
  - unfold piece. simpl. done.
  - apply Forall_forall. intros b Hb. change (1 :: seq 2 m) with (seq 1 (S m)) in Hb.
    apply elem_of_seq in Hb. lia.
Qed.

Lemma make_limit_bitset_literal cls n register index :
  cls_name cls = Some n →
  list_index (cls_registers cls) register = Ok index →
  make_limit_bitset cls register
  = Ok (render_literal (limit_words (reg_constant n (reg_name register)) index
                          ((length (cls_registers cls) + 31) / 32))).
Proof.
  intros Hn Hidx. unfold make_limit_bitset. rewrite Hidx. simpl.
  rewrite (for_each_limit_bucket _ n) by done. simpl.
  rewrite pieces_from_zero. unfold render_literal.
  by rewrite ?string_app_assoc.
Qed.

Lemma limit_word_spec c index b :
  limit_word c index b
  = if decide (b = index / 32)
    then (if decide (b = 0) then WShift c else WShiftMod c)
    else WZero.
Proof.
  unfold limit_word.
  pose proof (Nat.div_mod_eq index 32) as Hdm.
  pose proof (Nat.mod_upper_bound index 32 ltac:(lia)) as Hm.
  destruct (Nat.leb_spec (b * 32) index), (Nat.ltb_spec index ((b + 1) * 32));
    cbn [andb]; repeat case_decide; try lia;
    destruct (Nat.ltb_spec 0 b); try done; lia.
Qed.

Lemma testbit_shift_one (n k : nat) :
  Z.testbit (Z.shiftl 1 (Z.of_nat n)) (Z.of_nat k) = true ↔ k = n.
Proof.
  rewrite Z.shiftl_1_l, Z.pow2_bits_eqb by lia.
  rewrite Z.eqb_eq. lia.
Qed.

Lemma eval_limit_word_bit (env : string → Z) c index b k :
  env c = Z.of_nat index →
  Z.testbit (eval_word env (limit_word c index b)) (Z.of_nat k) = true
  ↔ b = index / 32 ∧ k = index mod 32.
Proof.
  intros Henv. rewrite limit_word_spec.
  pose proof (Nat.div_mod_eq index 32) as Hdm.
  pose proof (Nat.mod_upper_bound index 32 ltac:(lia)) as Hm.
  repeat case_decide; cbn [eval_word].
  - rewrite Henv, testbit_shift_one. lia.
  - rewrite Henv.
    replace (Z.of_nat index `mod` 32)%Z with (Z.of_nat (index mod 32))
      by (rewrite Nat2Z.inj_mod; done).
    rewrite testbit_shift_one. lia.
  - rewrite Z.testbit_0_l. split; [done | lia].
Qed.

(** C1: for a class named by [regclass] with N registers and a register
    whose first occurrence in the class is at the 0-based index [i],
    [make_limit_bitset] returns the text of a literal of ceil(N/32) words;
    the word at position [i / 32] is a shift of 1 by the class/register
    constant ([REG_<CLASS>_<REGISTER>], reduced modulo 32 in the words after
    the first) and every other word is [0]; with the constant standing for
    the index, the bit [k] of word [b] is set exactly when [b = i / 32] and
    [k = i mod 32]. *)
Theorem make_limit_bitset_one_bit
    (cls : RegClass) (n : string) (r : Register) (i : nat) :
  cls_name cls = Some n →
  cls_registers cls !! i = Some r →
  (∀ j y, j < i → cls_registers cls !! j = Some y → reg_oid y ≠ reg_oid r) →
  ∃ ws : list word_expr,
    make_limit_bitset cls r = Ok (render_literal ws)
    ∧ length (cls_registers cls) ≤ 32 * length ws
      < length (cls_registers cls) + 32
    ∧ ws !! (i / 32)
      = Some (if decide (i / 32 = 0)
              then WShift (reg_constant n (reg_name r))
              else WShiftMod (reg_constant n (reg_name r)))
    ∧ (∀ b w, ws !! b = Some w → b ≠ i / 32 → w = WZero)
    ∧ (∀ env : string → Z,
         env (reg_constant n (reg_name r)) = Z.of_nat i →
         ∀ b w k, ws !! b = Some w →
           Z.testbit (eval_word env w) (Z.of_nat k) = true
           ↔ b = i / 32 ∧ k = i mod 32).
Proof.
  intros Hn Hi Hfirst.
  set (c := reg_constant n (reg_name r)).
  set (N := length (cls_registers cls)).
  exists (limit_words c i ((N + 31) / 32)).
  assert (Hlen : length (limit_words c i ((N + 31) / 32)) = (N + 31) / 32).
  { unfold limit_words. by rewrite length_map, length_seq. }
  assert (HiN : i < N) by (by apply lookup_lt_Some in Hi).
  assert (Hlookup : ∀ b w, limit_words c i ((N + 31) / 32) !! b = Some w →
                           w = limit_word c i b).
  { unfold limit_words. intros b w Hb.
    apply list_lookup_fmap_Some in Hb as (b' & -> & Hb').
    by apply lookup_seq in Hb' as [-> _]. }
  split; [| split; [| split; [| split]]].
  - apply make_limit_bitset_literal; [done |].
    by apply (list_index_from_first r _ 0 i).
  - rewrite Hlen.
    pose proof (Nat.div_mod_eq (N + 31) 32).
    pose proof (Nat.mod_upper_bound (N + 31) 32). lia.
  - unfold limit_words. rewrite list_lookup_fmap, lookup_seq_lt.
    + simpl. by rewrite limit_word_spec, decide_True.
    + pose proof (Nat.div_mod_eq (N + 31) 32).
      pose proof (Nat.mod_upper_bound (N + 31) 32).
      pose proof (Nat.div_mod_eq i 32).
      pose proof (Nat.mod_upper_bound i 32). lia.
  - intros b w Hb Hne. rewrite (Hlookup b w Hb), limit_word_spec.
    by rewrite decide_False.
  - intros env Henv b w k Hb. rewrite (Hlookup b w Hb).
    by apply eval_limit_word_bit.
Qed.

(** The instance of the sample description: [gp] has 32 registers, [sp] is
    the one at slot 14, and the literal is the single word [1 << REG_GP_SP]. *)
Lemma make_limit_bitset_gp_sp :
  length (cls_registers gp) = 32
  ∧ cls_registers gp !! 14 = Some sp
  ∧ make_limit_bitset gp sp = Ok "{ (1 << REG_GP_SP) }"
  ∧ ∃ ws : list word_expr,
      make_limit_bitset gp sp = Ok (render_literal ws)
      ∧ 32 ≤ 32 * length ws < 32 + 32
      ∧ ws !! (14 / 32) = Some (WShift "REG_GP_SP")
      ∧ (∀ b w, ws !! b = Some w → b ≠ 14 / 32 → w = WZero)
      ∧ (∀ env : string → Z,
           env "REG_GP_SP" = 14%Z →
           ∀ b w k, ws !! b = Some w →
             Z.testbit (eval_word env w) (Z.of_nat k) = true
             ↔ b = 14 / 32 ∧ k = 14 mod 32).
Proof.
  split; [reflexivity |]. split; [reflexivity |]. split; [reflexivity |].
  apply (make_limit_bitset_one_bit gp "gp" sp 14).
  - reflexivity.
  - reflexivity.
  - intros j y Hj Hy.
    do 14 (destruct j as [|j]; [injection Hy as <-; simpl; lia |]).
    lia.
Defined.

(** ** registers.py: [regclass] *)

Lemma register_classes_declared :
  declare_register_classes initial_state
  = Ok ((gp, fp, flags, fpflags), state_after_classes).
Proof. reflexivity. Qed.

(** C3 (as amended): [regclass] performs no check: whatever the register
    list and whatever the registry holds, the class is named after its
    Python name and appended to [register_classes], its register list
    untouched; no exception is raised, and a second class declared after
    it, whatever its name and registers, is appended in turn. *)
Theorem regclass_accepts_everything (c c' : RegClass) (st : pystate) :
  (∃ st',
     regclass c st = Ok (prepare_class c, st')
     ∧ register_classes st' = (register_classes st ++ [prepare_class c])%list
     ∧ next_oid st' = next_oid st)
  ∧ cls_registers (prepare_class c) = cls_registers c
  ∧ cls_name (prepare_class c) = Some (cls_pyname c)
  ∧ (∀ e, regclass c st ≠ Raised e)
  ∧ (∃ st'',
       (_ ← regclass c; regclass c') st = Ok (prepare_class c', st'')
       ∧ register_classes st''
         = (register_classes st ++ [prepare_class c; prepare_class c'])%list).
Proof.
  split; [eexists; split; [reflexivity | by split] |].
  split; [done |]. split; [done |]. split; [done |].
  eexists. split; [reflexivity |]. simpl. by rewrite <- app_assoc.
Qed.

(** C3 (counterexample): a class naming the register ["a"] twice is
    declared without error, and so is a second class named ["gp"] while the
    registry already holds one. *)
Lemma regclass_duplicates_accepted :
  (∃ st,
     declare_twice state_after_classes = Ok (twice, st)
     ∧ ¬ NoDup (reg_name <$> cls_registers twice)
     ∧ twice ∈ register_classes st)
  ∧ (∃ c st,
       declare_gp_again state_after_classes = Ok (c, st)
       ∧ cls_name c = Some "gp"
       ∧ cls_name <$> register_classes state_after_classes
         = [Some "gp"; Some "fp"; Some "flags"; Some "fpflags"]
       ∧ cls_name <$> register_classes st
         = [Some "gp"; Some "fp"; Some "flags"; Some "fpflags"; Some "gp"]).
Proof.
  split.
  - eexists. split; [reflexivity |]. split.
    + simpl. intros Hnd. apply NoDup_cons in Hnd as [Hin _].
      apply Hin. by left.
    + simpl. rewrite !elem_of_cons. tauto.
  - assert (Hrun : declare_gp_again state_after_classes = gp_again)
      by (vm_compute; reflexivity).
    unfold gp_again in Hrun. eexists _, _. split; [exact Hrun |].
    split; [reflexivity |]. split; reflexivity.
Qed.

(** ** beops.py: the scan of [singlereq] *)

Section scan.
Context (regname : string).

Lemma scan_registers_first (regs : list Register) (i : nat) (r : Register) :
  regs !! i = Some r →
  reg_name r = regname →
  (∀ j y, j < i → regs !! j = Some y → reg_name y ≠ regname) →
  scan_registers regs regname = Some r.
Proof.
  revert i. induction regs as [|y regs IH]; intros i Hi Hr Hbefore; [done |].
  simpl. destruct i as [|i]; simpl in Hi.
  - injection Hi as ->. by rewrite Hr, String.eqb_refl.
  - destruct (String.eqb_spec (reg_name y) regname) as [Heq | _].
    + exfalso. by apply (Hbefore 0 y); [lia | |].
    + apply (IH i); [done | done |].
      intros j z Hj Hz. apply (Hbefore (S j) z); [lia | done].
Qed.

Lemma scan_registers_Some (regs : list Register) (r : Register) :
  scan_registers regs regname = Some r →
  ∃ i, regs !! i = Some r ∧ reg_name r = regname
       ∧ ∀ j y, j < i → regs !! j = Some y → reg_name y ≠ regname.
Proof.
  induction regs as [|y regs IH]; [done |]. simpl.
  destruct (String.eqb_spec (reg_name y) regname) as [Heq | Hne].
  - intros [= ->]. exists 0. repeat split; [done |]. intros; lia.
  - intros (i & Hi & Hr & Hbefore)%IH. exists (S i).
    repeat split; [done | done |].
    intros [|j] z Hj Hz; simpl in Hz.
    + by injection Hz as <-.
    + apply (Hbefore j z); [lia | done].
Qed.

Lemma scan_registers_None (regs : list Register) :
  scan_registers regs regname = None ↔ regname ∉ reg_name <$> regs.
Proof.
  induction regs as [|y regs IH]; simpl.
  - split; [intros _; apply not_elem_of_nil | done].
  - rewrite not_elem_of_cons.
    destruct (String.eqb_spec (reg_name y) regname) as [Heq | Hne].
    + split; [done | intros [Hne _]; by destruct Hne].
    + rewrite IH. split; [intros ?; split; [congruence | done] | tauto].
Qed.
End scan.

(** C4 (as amended): in a class named by [regclass], [singlereq] called
    with the name of a register that is the first of the class to carry
    that name returns the requirement bound to this very register (so to
    every register when the names of the class are pairwise distinct); it
    raises the exception "No register named ... in regclass ..." when no
    register of the class has the name, and only then. *)
Theorem singlereq_first_of_its_name (c : RegClass) (n : string) :
  cls_name c = Some n →
  (∀ i r,
     cls_registers c !! i = Some r →
     (∀ j y, j < i → cls_registers c !! j = Some y → reg_name y ≠ reg_name r) →
     singlereq c (reg_name r)
     = Ok {| req_kind_of := kind_singlereq;
             req_cls := Some c; req_reg := Some r |})
  ∧ (NoDup (reg_name <$> cls_registers c) →
     ∀ r, r ∈ cls_registers c →
       singlereq c (reg_name r)
       = Ok {| req_kind_of := kind_singlereq;
               req_cls := Some c; req_reg := Some r |})
  ∧ (∀ regname,
       regname ∉ reg_name <$> cls_registers c →
       singlereq c regname
       = Raised (Exception ("No register named " +:+ regname
                            +:+ " in regclass " +:+ n)))
  ∧ (∀ regname e,
       singlereq c regname = Raised e →
       regname ∉ reg_name <$> cls_registers c).
Proof.
  intros Hn.
  assert (Hfirst : ∀ i r,
     cls_registers c !! i = Some r →
     (∀ j y, j < i → cls_registers c !! j = Some y → reg_name y ≠ reg_name r) →
     singlereq c (reg_name r)
     = Ok {| req_kind_of := kind_singlereq;
             req_cls := Some c; req_reg := Some r |}).
  { intros i r Hi Hbefore. unfold singlereq.
    by rewrite (scan_registers_first (reg_name r) _ i r). }
  split; [exact Hfirst |]. split; [| split].
  - intros Hnd r Hr. apply list_elem_of_lookup in Hr as [i Hi].
    apply (Hfirst i r Hi). intros j y Hj Hy Heq.
    assert (j = i); [| lia].
    apply (NoDup_lookup _ j i (reg_name r) Hnd);
      rewrite list_lookup_fmap; [by rewrite Hy; simpl; f_equal | by rewrite Hi].
  - intros regname Hnot. unfold singlereq, get_name.
    apply scan_registers_None in Hnot. by rewrite Hnot, Hn.
  - intros regname e. unfold singlereq.
    destruct (scan_registers (cls_registers c) regname) eqn:Hscan; [done |].
    intros _. by apply scan_registers_None.
Qed.

Lemma singlereq_first_of_its_name_gp :
  singlereq gp "sp"
  = Ok {| req_kind_of := kind_singlereq;
          req_cls := Some gp; req_reg := Some sp |}
  ∧ singlereq gp "pc"
    = Raised (Exception "No register named pc in regclass gp").
Proof.
  pose proof (singlereq_first_of_its_name gp "gp" eq_refl)
    as (Hfirst & _ & Hunknown & _).
  split.
  - apply (Hfirst 14 sp); [reflexivity |].
    intros j y Hj Hy.
    do 14 (destruct j as [|j]; [injection Hy as <-; simpl; discriminate |]).
    lia.
  - apply (Hunknown "pc"). vm_compute. not_among.
Defined.

(** C4 (counterexample): [a1] is a register declared in [twice], and
    [singlereq] called with its name returns a requirement bound to another
    register. *)
Lemma singlereq_not_reflexive :
  (∃ st, declare_twice state_after_classes = Ok (twice, st))
  ∧ a1 ∈ cls_registers twice
  ∧ singlereq twice (reg_name a1)
    = Ok {| req_kind_of := kind_singlereq;
            req_cls := Some twice; req_reg := Some a0 |}
  ∧ reg_oid a0 ≠ reg_oid a1
  ∧ ¬ ∃ req, singlereq twice (reg_name a1) = Ok req ∧ req_reg req = Some a1.
Proof.
  split; [eexists; reflexivity |]. split; [| split; [| split]].
  - simpl. rewrite !elem_of_cons. tauto.
  - reflexivity.
  - simpl. lia.
  - intros (req & Hreq & Hreg). vm_compute in Hreq.
    injection Hreq as <-. discriminate Hreg.
Qed.

(** C10: when the name occurs among the registers of the class, [singlereq]
    and [producestackreq] both return a requirement bound to the register
    at the least index whose name matches. *)
Theorem requirement_binds_first_match (c : RegClass) (regname : string) :
  regname ∈ reg_name <$> cls_registers c →
  ∃ i r,
    cls_registers c !! i = Some r
    ∧ reg_name r = regname
    ∧ (∀ j y, j < i → cls_registers c !! j = Some y → reg_name y ≠ regname)
    ∧ singlereq c regname
      = Ok {| req_kind_of := kind_singlereq;
              req_cls := Some c; req_reg := Some r |}
    ∧ producestackreq c regname
      = Ok {| req_kind_of := kind_producestackreq;
              req_cls := Some c; req_reg := Some r |}.
Proof.
  intros Hin. unfold producestackreq, singlereq.
  destruct (scan_registers (cls_registers c) regname) as [r|] eqn:Hscan.
  - apply scan_registers_Some in Hscan as (i & Hi & Hr & Hbefore).
    exists i, r. repeat split; done.
  - by apply scan_registers_None in Hscan.
Qed.

Lemma requirement_binds_first_match_twice :
  ∃ i r,
    cls_registers twice !! i = Some r
    ∧ reg_name r = "a"
    ∧ (∀ j y, j < i → cls_registers twice !! j = Some y → reg_name y ≠ "a")
    ∧ singlereq twice "a"
      = Ok {| req_kind_of := kind_singlereq;
              req_cls := Some twice; req_reg := Some r |}
    ∧ producestackreq twice "a"
      = Ok {| req_kind_of := kind_producestackreq;
              req_cls := Some twice; req_reg := Some r |}.
Proof.
  apply (requirement_binds_first_match twice "a").
  simpl. apply elem_of_cons. by left.
Defined.

(** ** spec.py: class bodies and attribute lookup *)

Lemma exec_stmt_other (dict dict' : gmap string value) (s : stmt) (f : string) :
  exec_stmt dict s = Ok dict' →
  f ∉ assigned [s] →
  dict' !! f = dict !! f.
Proof.
  destruct s as [target rhs tc]. simpl.
  destruct (eval_testlist rhs tc) as [v|e]; simpl; [| done].
  intros [= <-] Hf. apply lookup_insert_ne. intros ->. apply Hf. by left.
Qed.

Lemma body_keeps_unassigned (body : list stmt) (dict dict' : gmap string value)
    (f : string) :
  for_each exec_stmt dict body = Ok dict' →
  f ∉ assigned body →
  dict' !! f = dict !! f.
Proof.
  revert dict. induction body as [|s body IH]; intros dict; simpl.
  - by intros [= <-].
  - destruct (exec_stmt dict s) as [dict1|e] eqn:Hs; simpl; [| done].
    intros Hrest Hf. apply not_elem_of_cons in Hf as [Hne Hf].
    rewrite (IH dict1 Hrest Hf). apply (exec_stmt_other _ _ s); [done |].
    destruct s. simpl in *.
    apply not_elem_of_cons. split; [done | apply not_elem_of_nil].
Qed.

Lemma body_binds_last_assignment (pre post : list stmt) (f : string)
    (rhs : list expr) (tc : bool) (dict dict' : gmap string value) (v : value) :
  for_each exec_stmt dict (pre ++ Assign f rhs tc :: post) = Ok dict' →
  f ∉ assigned post →
  eval_testlist rhs tc = Ok v →
  dict' !! f = Some v.
Proof.
  rewrite for_each_app.
  destruct (for_each exec_stmt dict pre) as [dict1|e]; simpl; [| done].
  intros Hrun Hf Hv. rewrite Hv in Hrun. simpl in Hrun.
  rewrite (body_keeps_unassigned post _ _ f Hrun Hf).
  apply lookup_insert_eq.
Qed.

Lemma merge_chain_getattr (root : gmap string value) (c : pyclass) (f : string) :
  merge_chain root c !! f
  = match getattr c f with
    | Some v => Some v
    | None => root !! f
    end.
Proof.
  unfold merge_chain. induction c as [|pyname base IH dict]; simpl; [done |].
  rewrite foldl_app. simpl. unfold merge at 1.
  destruct (dict !! f) as [v|] eqn:Hf.
  - by apply lookup_union_Some_l.
  - by rewrite lookup_union_r.
Qed.

(** The rule of the right-hand sides: a trailing comma wraps the value of
    the single expression in a tuple of one element. *)
Lemma trailing_comma_makes_tuple (e : expr) (v : value) :
  eval_expr e = Ok v →
  eval_testlist [e] false = Ok v ∧ eval_testlist [e] true = Ok (VTuple [v]).
Proof. intros He. simpl. by rewrite He. Qed.

(** C6: a class statement overrides field by field.  A field the body does
    not assign is looked up in the base, unchanged; a field the body
    assigns has the value of its last assignment, whatever the base holds;
    and the merge of the base chain, root to leaf, agrees with the lookup
    at every field. *)
Theorem class_def_overrides_per_field
    (pyname : string) (base : pyclass) (body : list stmt) (c : pyclass) :
  class_def pyname base body = Ok c →
  (∀ f, f ∉ assigned body → getattr c f = getattr base f)
  ∧ (∀ f (pre : list stmt) rhs tc post v,
       body = (pre ++ Assign f rhs tc :: post)%list →
       f ∉ assigned post →
       eval_testlist rhs tc = Ok v →
       getattr c f = Some v)
  ∧ (∀ root f,
       merge_chain root c !! f
       = match own_dict c !! f with
         | Some v => Some v
         | None => merge_chain root base !! f
         end)
  ∧ (∀ root f,
       merge_chain root c !! f
       = match getattr c f with
         | Some v => Some v
         | None => root !! f
         end).
Proof.
  unfold class_def.
  destruct (for_each exec_stmt ∅ body) as [dict|e] eqn:Hbody; simpl; [| done].
  intros [= <-]. split; [| split; [| split]].
  - intros f Hf. simpl.
    by rewrite (body_keeps_unassigned body ∅ dict f Hbody Hf), lookup_empty.
  - intros f pre rhs tc post v -> Hf Hv. simpl.
    by rewrite (body_binds_last_assignment pre post f rhs tc ∅ dict v Hbody Hf Hv).
  - intros root f. rewrite !merge_chain_getattr. simpl.
    by destruct (dict !! f).
  - intros root f. apply merge_chain_getattr.
Qed.

(** The instance of the sample description: [SwitchJmp] assigns [out_reqs]
    and not [outs]; its [outs] are those of [BranchBase], its [out_reqs]
    the marker alone. *)
Lemma class_def_overrides_SwitchJmp :
  ∃ b c,
    BranchBase = Ok b ∧ SwitchJmp = Ok c
    ∧ getattr b "outs" = Some (VList [VStr "false"; VStr "true"])
    ∧ getattr c "outs" = getattr b "outs"
    ∧ getattr b "out_reqs" = Some (VList [VReq noreq; VReq noreq])
    ∧ getattr c "out_reqs" = Some (VStr "...")
    ∧ merge_chain root_default c !! "outs"
      = Some (VList [VStr "false"; VStr "true"])
    ∧ merge_chain root_default c !! "out_reqs" = Some (VStr "...").
Proof.
  destruct BranchBase as [b|e] eqn:Hb; [| by vm_compute in Hb].
  assert (Hc : ∃ c, class_def "SwitchJmp" b SwitchJmp_body = Ok c)
    by (vm_compute; eauto).
  destruct Hc as [c Hc]. exists b, c.
  assert (HSw : SwitchJmp = Ok c) by (unfold SwitchJmp; by rewrite Hb).
  destruct (class_def_overrides_per_field "SwitchJmp" b SwitchJmp_body c Hc)
    as (Hkeep & Hset & _ & Hmerge).
  assert (Houts : getattr b "outs" = Some (VList [VStr "false"; VStr "true"])).
  { vm_compute in Hb. injection Hb as <-. by vm_compute. }
  assert (Hreqs : getattr b "out_reqs" = Some (VList [VReq noreq; VReq noreq])).
  { vm_compute in Hb. injection Hb as <-. by vm_compute. }
  assert (Hkept : getattr c "outs" = getattr b "outs").
  { apply Hkeep. vm_compute. not_among. }
  assert (Hover : getattr c "out_reqs" = Some (VStr "...")).
  { apply (Hset "out_reqs" [ "in_reqs" ::= EList [cls gp] ] [variadic] false
             (drop 2 SwitchJmp_body)); [reflexivity | | reflexivity].
    vm_compute. not_among. }
  repeat split; try done.
  - by rewrite Hmerge, Hkept, Houts.
  - by rewrite Hmerge, Hover.
Defined.

(** C9: evaluating the class statement of [AddSP] binds each of [in_reqs],
    [out_reqs], [ins] and [outs] to a tuple of one element, that element
    being the list written on the line; [mode] and [emit], written without
    the comma, are bound to the values themselves. *)
Theorem AddSP_binds_one_element_tuples :
  ∃ c,
    AddSP = Ok c
    ∧ getattr c "in_reqs"
      = Some (VTuple [VList [
          VReq {| req_kind_of := kind_singlereq;
                  req_cls := Some gp; req_reg := Some sp |};
          VRegClass gp ]])
    ∧ getattr c "out_reqs"
      = Some (VTuple [VList [
          VReq {| req_kind_of := kind_producestackreq;
                  req_cls := Some gp; req_reg := Some sp |} ]])
    ∧ getattr c "ins" = Some (VTuple [VList [VStr "stack"; VStr "size"]])
    ∧ getattr c "outs" = Some (VTuple [VList [VStr "stack"]])
    ∧ getattr c "mode" = Some (VStr "mode_Iu")
    ∧ getattr c "emit" = Some (VStr "add %S0, %S1, %D0").
Proof.
  destruct AddSP as [c|e] eqn:Hc; [| by vm_compute in Hc].
  exists c. split; [done |].
  vm_compute in Hc. injection Hc as <-.
  repeat split; by vm_compute.
Qed.

(** ** irops: the validation *)

Lemma lengths_match_true (names reqs : option value) :
  lengths_match names reqs = true
  ↔ ∀ xs ys, names = Some (VList xs) → reqs = Some (VList ys) →
             length xs = length ys.
Proof.
  split.
  - intros Hm xs ys -> ->. simpl in Hm. by apply Nat.eqb_eq.
  - intros Hlen. destruct names as [[]|], reqs as [[]|]; try done.
    simpl. apply Nat.eqb_eq. by apply Hlen.
Qed.

Lemma lengths_match_false (names reqs : option value) :
  lengths_match names reqs = false
  ↔ ∃ xs ys, names = Some (VList xs) ∧ reqs = Some (VList ys)
             ∧ length xs ≠ length ys.
Proof.
  split.
  - destruct names as [[]|], reqs as [[]|]; try done. simpl.
    intros Hne%Nat.eqb_neq. eauto.
  - intros (xs & ys & -> & -> & Hne). simpl. by apply Nat.eqb_neq.
Qed.

Lemma constructors_ok_false (v : option value) :
  constructors_ok v = false
  ↔ ∃ cs k xs ys, v = Some (VList cs) ∧ VConstructor k ∈ cs
       ∧ c_ins k = VList xs ∧ c_in_reqs k = VList ys
       ∧ length xs ≠ length ys.
Proof.
  split.
  - destruct v as [[| | cs | | | |]|]; try done. simpl.
    intros Hex. apply not_true_iff_false in Hex.
    rewrite forallb_forall in Hex.
    induction cs as [|x cs IH].
    + exfalso. apply Hex. intros ? [].
    + destruct (constructor_ok x) eqn:Hx.
      * destruct IH as (cs' & k & xs & ys & [= <-] & Hin & Hrest).
        { intros Hall. apply Hex. intros y [<- | Hy]; [done | by apply Hall]. }
        exists (x :: cs), k, xs, ys. split; [done |].
        split; [by right | done].
      * destruct x as [| | | | | |k]; try done.
        unfold constructor_ok in Hx.
        apply lengths_match_false in Hx
          as (xs & ys & [= Hxs] & [= Hys] & Hne).
        exists (VConstructor k :: cs), k, xs, ys.
        repeat split; [by left | done | done | done].
  - intros (cs & k & xs & ys & -> & Hin & Hxs & Hys & Hne). simpl.
    apply not_true_iff_false. rewrite forallb_forall. intros Hall.
    apply list_elem_of_In in Hin. specialize (Hall _ Hin). simpl in Hall.
    rewrite Hxs, Hys in Hall. simpl in Hall. by apply Nat.eqb_eq in Hall.
Qed.

Lemma verify_node_Ok (opcode : string) (attrs : gmap string value) :
  verify_node opcode attrs = Ok ()
  ↔ lengths_match (attrs !! "outs") (attrs !! "out_reqs") = true
    ∧ lengths_match (attrs !! "ins") (attrs !! "in_reqs") = true
    ∧ constructors_ok (attrs !! "constructors") = true
    ∧ attr_struct_ok (attrs !! "attr_struct") = true.
Proof.
  unfold verify_node.
  destruct (lengths_match (attrs !! "outs") (attrs !! "out_reqs"));
    destruct (lengths_match (attrs !! "ins") (attrs !! "in_reqs"));
    destruct (constructors_ok (attrs !! "constructors"));
    destruct (attr_struct_ok (attrs !! "attr_struct"));
    simpl; split; try done; intros (? & ? & ? & ?); done.
Qed.

Lemma verify_node_mismatch (opcode : string) (attrs : gmap string value)
    (field : string) :
  mismatch attrs field →
  ∃ field', verify_node opcode attrs = Raised (MalformedSpecError opcode field')
            ∧ mismatch attrs field'.
Proof.
  intros Hmis. unfold verify_node.
  destruct (lengths_match (attrs !! "outs") (attrs !! "out_reqs")) eqn:Houts.
  2: { apply lengths_match_false in Houts as (xs & ys & ? & ? & ?).
       exists "out_reqs". split; [done |]. by eapply mismatch_outs. }
  destruct (lengths_match (attrs !! "ins") (attrs !! "in_reqs")) eqn:Hins.
  2: { apply lengths_match_false in Hins as (xs & ys & ? & ? & ?).
       exists "in_reqs". split; [done |]. by eapply mismatch_ins. }
  destruct (constructors_ok (attrs !! "constructors")) eqn:Hcs.
  2: { apply constructors_ok_false in Hcs as (cs & k & xs & ys & ? & ? & ? & ? & ?).
       exists "constructors". split; [done |]. by eapply mismatch_constructor. }
  exfalso. destruct Hmis as [xs ys Hx Hy Hne | xs ys Hx Hy Hne
                             | cs k xs ys Hcs' Hin Hx Hy Hne].
  - rewrite lengths_match_true in Houts. by apply Hne, Houts.
  - rewrite lengths_match_true in Hins. by apply Hne, Hins.
  - assert (constructors_ok (attrs !! "constructors") = false) as Hno; [| congruence].
    apply constructors_ok_false. by exists cs, k, xs, ys.
Qed.

Lemma assemble_Ok (c : pyclass) (spec : NodeSpec) :
  assemble c = Ok spec
  ↔ verify_node (class_pyname c) (merge_chain root_default c) = Ok ()
    ∧ spec = {| node_name := class_pyname c;
                node_attrs := merge_chain root_default c |}.
Proof.
  unfold assemble.
  destruct (verify_node (class_pyname c) (merge_chain root_default c))
    as [[]|e]; simpl.
  - split; [by intros [= <-] | by intros [_ ->]].
  - split; [done | by intros [? _]].
Qed.

(** C2: a description that the assembly accepts has as many output
    requirements as named outputs, and as many input requirements as named
    inputs, whenever both are lists, and each of its constructors has as
    many requirements as named operands; a description with a count
    mismatch in one of these places is refused with [MalformedSpecError]
    carrying the name of the opcode and a field that is mismatched. *)
Theorem assemble_checks_operand_counts (c : pyclass) :
  (∀ spec, assemble c = Ok spec →
     node_name spec = class_pyname c
     ∧ (∀ xs ys,
          node_attrs spec !! "outs" = Some (VList xs) →
          node_attrs spec !! "out_reqs" = Some (VList ys) →
          length xs = length ys)
     ∧ (∀ xs ys,
          node_attrs spec !! "ins" = Some (VList xs) →
          node_attrs spec !! "in_reqs" = Some (VList ys) →
          length xs = length ys)
     ∧ (∀ cs k xs ys,
          node_attrs spec !! "constructors" = Some (VList cs) →
          VConstructor k ∈ cs →
          c_ins k = VList xs → c_in_reqs k = VList ys →
          length xs = length ys))
  ∧ (∀ field, mismatch (merge_chain root_default c) field →
       ∃ field',
         assemble c = Raised (MalformedSpecError (class_pyname c) field')
         ∧ mismatch (merge_chain root_default c) field').
Proof.
  split.
  - intros spec (Hv & ->)%assemble_Ok. simpl.
    apply verify_node_Ok in Hv as (Houts & Hins & Hcs & _).
    split; [done |]. split; [| split].
    + by apply lengths_match_true.
    + by apply lengths_match_true.
    + intros cs k xs ys Hcs' Hin Hx Hy.
      destruct (decide (length xs = length ys)) as [|Hne]; [done |].
      assert (constructors_ok (merge_chain root_default c !! "constructors")
              = false) as Hno; [| congruence].
      apply constructors_ok_false. by exists cs, k, xs, ys.
  - intros field Hmis.
    destruct (verify_node_mismatch (class_pyname c) _ field Hmis)
      as (field' & Hv & Hmis').
    exists field'. split; [| done]. unfold assemble. by rewrite Hv.
Qed.

(** The constructor with one named input and two requirements: the class
    carrying it is refused, the refusal naming the class and its
    [constructors]; the constructor as the description has it passes. *)
Lemma assemble_checks_Lopsided :
  c_ins imm_two_requirements = VList [VStr "left"]
  ∧ c_in_reqs imm_two_requirements = VList [VRegClass gp; VRegClass gp]
  ∧ (∃ c, Lopsided = Ok c
          ∧ assemble c = Raised (MalformedSpecError "Lopsided" "constructors"))
  ∧ constructors_ok (Some _binop_constructors) = true
  ∧ (∃ c spec, Start = Ok c ∧ assemble c = Ok spec
               ∧ node_name spec = "Start"
               ∧ node_attrs spec !! "ins" = Some (VList [])
               ∧ node_attrs spec !! "in_reqs" = Some (VList [])).
Proof.
  split; [reflexivity |]. split; [reflexivity |].
  split; [| split; [reflexivity |]].
  2: { destruct Start as [c|e] eqn:Hc; [| by vm_compute in Hc].
       destruct (assemble c) as [spec|e] eqn:Hspec.
       - exists c, spec. split; [done |]. split; [done |].
         destruct (assemble_checks_operand_counts c) as [Haccept _].
         destruct (Haccept spec Hspec) as (Hname & _). rewrite Hname.
         apply assemble_Ok in Hspec as [_ ->].
         vm_compute in Hc. injection Hc as <-. repeat split; by vm_compute.
       - vm_compute in Hc. injection Hc as <-. by vm_compute in Hspec. }
  destruct Lopsided as [c|e] eqn:Hc; [| by vm_compute in Hc].
  exists c. split; [done |].
  destruct (assemble_checks_operand_counts c) as [_ Hrefuse].
  destruct (Hrefuse "constructors") as (field' & Hraised & Hmis).
  - vm_compute in Hc. injection Hc as <-.
    apply (mismatch_constructor _ [VConstructor imm_two_requirements]
             imm_two_requirements [VStr "left"] [VRegClass gp; VRegClass gp]).
    + by vm_compute.
    + by left.
    + reflexivity.
    + reflexivity.
    + simpl. lia.
  - rewrite Hraised. vm_compute in Hc. injection Hc as <-.
    destruct Hmis as [xs ys Hx Hy Hne | xs ys Hx Hy Hne | ]; [| | done].
    + vm_compute in Hx, Hy. injection Hx as <-. injection Hy as <-. done.
    + vm_compute in Hx, Hy. injection Hx as <-. injection Hy as <-. done.
Defined.

(** C8: where the requirements (or the names) of the inputs are the marker
    ["..."], the validation never reports a mismatch of the inputs, and
    likewise for the outputs; a description with both requirement lists
    variadic is accepted whatever its named outputs and inputs are, as soon
    as its constructors and its attribute struct pass. *)
Theorem variadic_bypasses_length_check
    (opcode : string) (attrs : gmap string value) :
  (attrs !! "in_reqs" = Some (VStr "...") ∨ attrs !! "ins" = Some (VStr "...") →
     lengths_match (attrs !! "ins") (attrs !! "in_reqs") = true
     ∧ verify_node opcode attrs ≠ Raised (MalformedSpecError opcode "in_reqs"))
  ∧ (attrs !! "out_reqs" = Some (VStr "...")
     ∨ attrs !! "outs" = Some (VStr "...") →
     lengths_match (attrs !! "outs") (attrs !! "out_reqs") = true
     ∧ verify_node opcode attrs ≠ Raised (MalformedSpecError opcode "out_reqs"))
  ∧ (attrs !! "in_reqs" = Some (VStr "...") →
     attrs !! "out_reqs" = Some (VStr "...") →
     constructors_ok (attrs !! "constructors") = true →
     attr_struct_ok (attrs !! "attr_struct") = true →
     verify_node opcode attrs = Ok ()).
Proof.
  assert (Hin : attrs !! "in_reqs" = Some (VStr "...")
                ∨ attrs !! "ins" = Some (VStr "...") →
                lengths_match (attrs !! "ins") (attrs !! "in_reqs") = true).
  { intros [-> | ->]; [by destruct (attrs !! "ins") as [[]|] | done]. }
  assert (Hout : attrs !! "out_reqs" = Some (VStr "...")
                 ∨ attrs !! "outs" = Some (VStr "...") →
                 lengths_match (attrs !! "outs") (attrs !! "out_reqs") = true).
  { intros [-> | ->]; [by destruct (attrs !! "outs") as [[]|] | done]. }
  split; [| split].
  - intros H. split; [by apply Hin |]. unfold verify_node.
    rewrite (Hin H).
    destruct (lengths_match (attrs !! "outs") (attrs !! "out_reqs"));
      destruct (constructors_ok (attrs !! "constructors"));
      destruct (attr_struct_ok (attrs !! "attr_struct")); simpl; congruence.
  - intros H. split; [by apply Hout |]. unfold verify_node.
    rewrite (Hout H).
    destruct (lengths_match (attrs !! "ins") (attrs !! "in_reqs"));
      destruct (constructors_ok (attrs !! "constructors"));
      destruct (attr_struct_ok (attrs !! "attr_struct")); simpl; congruence.
  - intros Hi Ho Hcs Hattr. apply verify_node_Ok.
    split; [apply Hout; by left |]. split; [apply Hin; by left | done].
Qed.

(** [Call]: both requirement lists variadic, three named outputs, and the
    description is accepted. *)
Lemma variadic_bypasses_Call :
  ∃ c spec,
    Call = Ok c ∧ assemble c = Ok spec
    ∧ node_attrs spec !! "in_reqs" = Some (VStr "...")
    ∧ node_attrs spec !! "out_reqs" = Some (VStr "...")
    ∧ node_attrs spec !! "outs"
      = Some (VList [VStr "M"; VStr "stack"; VStr "first_result"])
    ∧ node_attrs spec !! "ins" = Some (VList []).
Proof.
  destruct Call as [c|e] eqn:Hc; [| by vm_compute in Hc].
  exists c, {| node_name := class_pyname c;
               node_attrs := merge_chain root_default c |}.
  split; [done |].
  vm_compute in Hc. injection Hc as <-.
  split; [| repeat split; by vm_compute].
  apply assemble_Ok. split; [| done].
  apply variadic_bypasses_length_check; by vm_compute.
Defined.

(** ** spec.py: the renaming loop *)

Lemma rename_nodes_cons (store : gmap nat NodeSpec) (node : nat)
    (nodes : list nat) :
  rename_nodes (node :: nodes) store
  = rename_nodes nodes (alter qualify node store).
Proof. reflexivity. Qed.

Lemma rename_nodes_other (nodes : list nat) (store : gmap nat NodeSpec) (o : nat) :
  o ∉ nodes → rename_nodes nodes store !! o = store !! o.
Proof.
  revert store. induction nodes as [|x nodes IH]; intros store Ho; [done |].
  apply not_elem_of_cons in Ho as [Hne Ho].
  rewrite rename_nodes_cons, IH by done. by apply lookup_alter_ne.
Qed.

Lemma rename_nodes_once (nodes : list nat) (store : gmap nat NodeSpec) (o : nat) :
  NoDup nodes → o ∈ nodes →
  rename_nodes nodes store !! o = qualify <$> store !! o.
Proof.
  revert store. induction nodes as [|x nodes IH]; intros store Hnd Ho.
  - by apply elem_of_nil in Ho.
  - apply NoDup_cons in Hnd as [Hx Hnd]. rewrite rename_nodes_cons.
    apply elem_of_cons in Ho as [-> | Ho].
    + rewrite rename_nodes_other by done. apply lookup_alter_eq.
    + rewrite IH by done. rewrite lookup_alter_ne; [done |].
      intros ->. by apply Hx.
Qed.

Lemma deref_cons (store : gmap nat NodeSpec) (r : nat) (refs : list nat) :
  deref store (r :: refs)
  = match store !! r with
    | Some node => node :: deref store refs
    | None => deref store refs
    end.
Proof. reflexivity. Qed.

Lemma deref_pointwise (g : NodeSpec → NodeSpec)
    (store store' : gmap nat NodeSpec) (refs : list nat) :
  (∀ o, o ∈ refs → store' !! o = g <$> store !! o) →
  deref store' refs = g <$> deref store refs.
Proof.
  induction refs as [|r refs IH]; intros Hpt; [done |].
  rewrite !deref_cons, (Hpt r) by (by left).
  rewrite IH by (intros o Ho; apply Hpt; by right).
  by destruct (store !! r).
Qed.

Lemma rename_loop_concrete_frame
    (nodes abstract_nodes : list nat) (store : gmap nat NodeSpec) :
  NoDup nodes →
  (∀ o, o ∈ abstract_nodes → o ∉ nodes) →
  deref (rename_nodes nodes store) nodes = qualify <$> deref store nodes
  ∧ deref (rename_nodes nodes store) abstract_nodes
    = deref store abstract_nodes.
Proof.
  intros Hnd Hdisj. split.
  - apply deref_pointwise. intros o Ho. by apply rename_nodes_once.
  - rewrite <- (list_fmap_id (deref store abstract_nodes)).
    apply deref_pointwise. intros o Ho.
    rewrite rename_nodes_other by (by apply Hdisj).
    by destruct (store !! o).
Qed.

(** C5 (as amended): when [nodes] lists each opcode object once and
    [abstract_nodes] shares no object with it, the loop leaves every object
    referenced from [nodes] with its name prefixed by ["sparc_"] and every
    object referenced from [abstract_nodes] as it was, its name included. *)
Theorem rename_loop_qualifies_concrete_only
    (nodes abstract_nodes : list nat) (store : gmap nat NodeSpec) :
  NoDup nodes →
  (∀ o, o ∈ abstract_nodes → o ∉ nodes) →
  deref (rename_nodes nodes store) nodes = qualify <$> deref store nodes
  ∧ node_name <$> deref (rename_nodes nodes store) nodes
    = (λ n, "sparc_" +:+ node_name n) <$> deref store nodes
  ∧ deref (rename_nodes nodes store) abstract_nodes
    = deref store abstract_nodes.
Proof.
  intros Hnd Hdisj.
  destruct (rename_loop_concrete_frame nodes abstract_nodes store Hnd Hdisj)
    as [Hq Hkeep].
  split; [done |]. split; [| done].
  rewrite Hq, <- list_fmap_compose. done.
Qed.

Lemma rename_loop_two_nodes :
  node_name <$> deref (rename_nodes [1] two_nodes) [1] = ["sparc_Ba"]
  ∧ deref (rename_nodes [1] two_nodes) [0] = deref two_nodes [0].
Proof.
  destruct (rename_loop_qualifies_concrete_only [1] [0] two_nodes)
    as (_ & Hnames & Hkept).
  - apply NoDup_singleton.
  - intros o Ho Hin. apply list_elem_of_singleton in Ho, Hin. lia.
  - split; [| exact Hkept]. rewrite Hnames. by vm_compute.
Defined.

(** C5 (counterexample): the pass run on the first two class statements of
    the description exports the abstract opcode under its bare name. *)
Lemma abstract_opcode_keeps_bare_name :
  (∃ namespace out,
     sparc_prefix = Ok namespace
     ∧ (d_is_op <$> namespace) = [false; true]
     ∧ finalize state_after_classes namespace = Ok out
     ∧ node_name <$> exp_nodes out = ["sparc_Start"]
     ∧ node_name <$> exp_abstract_nodes out = ["SparcBase"])
  ∧ node_name <$> deref (rename_nodes [1] two_nodes) [0] = ["JumpBase"].
Proof.
  split; [| by vm_compute].
  destruct sparc_prefix as [namespace|e] eqn:Hns; [| by vm_compute in Hns].
  destruct (finalize state_after_classes namespace) as [out|e] eqn:Hout.
  - exists namespace, out. split; [done |].
    vm_compute in Hns. injection Hns as <-.
    vm_compute in Hout. injection Hout as <-.
    repeat split; by vm_compute.
  - vm_compute in Hns. injection Hns as <-. by vm_compute in Hout.
Qed.

(** ** irops and spec.py: the pass as a whole *)

Lemma sequence_cons {A : Type} (m : outcome A) (ms : list (outcome A)) :
  sequence (m :: ms) = a ← m; rest ← sequence ms; Ok (a :: rest).
Proof. reflexivity. Qed.

Lemma sequence_assemble (namespace : list declared) (specs : list NodeSpec) :
  sequence ((λ d, assemble (d_class d)) <$> namespace) = Ok specs →
  specs = spec_of <$> namespace.
Proof.
  revert specs. induction namespace as [|d namespace IH]; intros specs.
  - by intros [= <-].
  - rewrite !fmap_cons, sequence_cons.
    destruct (assemble (d_class d)) as [spec|e] eqn:Hd; [| done].
    destruct (sequence ((λ d, assemble (d_class d)) <$> namespace))
      as [rest|e]; [| done].
    intros [= <-]. apply assemble_Ok in Hd as [_ ->].
    by rewrite (IH rest).
Qed.

Lemma partition_from_lower (namespace : list declared) (k o : nat) :
  o ∈ (partition_from k namespace).1 ∨ o ∈ (partition_from k namespace).2 →
  (k ≤ o)%nat.
Proof.
  revert k. induction namespace as [|d namespace IH]; intros k; simpl.
  - intros [H | H]; by apply elem_of_nil in H.
  - specialize (IH (S k)).
    destruct (partition_from (S k) namespace) as [concrete abstract].
    destruct (d_is_op d); simpl in *; rewrite elem_of_cons;
      intros [H | H]; try destruct H as [-> | H]; try lia;
      assert (S k ≤ o)%nat by (apply IH; tauto); lia.
Qed.

Lemma partition_from_separate (namespace : list declared) (k : nat) :
  NoDup (partition_from k namespace).1
  ∧ ∀ o, o ∈ (partition_from k namespace).2 →
         o ∉ (partition_from k namespace).1.
Proof.
  revert k. induction namespace as [|d namespace IH]; intros k; simpl.
  - split; [apply NoDup_nil_2 | intros o H; by apply elem_of_nil in H].
  - pose proof (partition_from_lower namespace (S k)) as Hlow.
    destruct (IH (S k)) as [Hnd Hdisj].
    destruct (partition_from (S k) namespace) as [concrete abstract].
    destruct (d_is_op d); simpl in *.
    + split.
      * apply NoDup_cons. split; [| done].
        intros Hk. assert (S k ≤ k)%nat by (apply Hlow; tauto). lia.
      * intros o Ho. apply not_elem_of_cons. split; [| by apply Hdisj].
        intros ->. assert (S k ≤ k)%nat by (apply Hlow; tauto). lia.
    + split; [done |]. intros o [-> | Ho]%elem_of_cons; [| by apply Hdisj].
      intros Hk. assert (S k ≤ k)%nat by (apply Hlow; tauto). lia.
Qed.

Lemma partition_from_deref (g : declared → NodeSpec)
    (namespace : list declared) (k : nat) (store : gmap nat NodeSpec) :
  (∀ i d, namespace !! i = Some d → store !! (k + i) = Some (g d)) →
  deref store (partition_from k namespace).1
  = g <$> List.filter d_is_op namespace
  ∧ deref store (partition_from k namespace).2
    = g <$> List.filter (λ d, negb (d_is_op d)) namespace.
Proof.
  revert k. induction namespace as [|d namespace IH]; intros k Hstore; [done |].
  simpl. destruct (IH (S k)) as [Hc Ha].
  { intros i d' Hi. replace (S k + i) with (k + S i) by lia.
    by apply Hstore. }
  assert (Hk : store !! k = Some (g d)).
  { replace k with (k + 0) by lia. by apply Hstore. }
  destruct (partition_from (S k) namespace) as [concrete abstract].
  destruct (d_is_op d); simpl in *; rewrite ?deref_cons, ?Hk; simpl;
    split; first [done | by rewrite Hc | by rewrite Ha].
Qed.

Lemma finalize_closed_form (st : pystate) (namespace : list declared)
    (out : exports) :
  finalize st namespace = Ok out →
  out = {| exp_arch := "sparc";
           exp_register_classes := register_classes st;
           exp_nodes :=
             (λ d, qualify (spec_of d)) <$> List.filter d_is_op namespace;
           exp_abstract_nodes :=
             spec_of <$> List.filter (λ d, negb (d_is_op d)) namespace |}.
Proof.
  unfold finalize, prepare_nodes.
  destruct (sequence ((λ d, assemble (d_class d)) <$> namespace))
    as [specs|e] eqn:Hspecs; [| done].
  apply sequence_assemble in Hspecs as ->.
  destruct (partition_from_separate namespace 0) as [Hnd Hdisj].
  destruct (partition_from_deref spec_of namespace 0
              (map_seq 0 (spec_of <$> namespace))) as [Hc Ha].
  { intros i d Hi. rewrite lookup_map_seq_0, list_lookup_fmap.
    simpl. by rewrite Hi. }
  destruct (partition_from 0 namespace) as [nodes abstract_nodes].
  simpl in *. intros [= <-].
  destruct (rename_loop_concrete_frame nodes abstract_nodes
              (map_seq 0 (spec_of <$> namespace)) Hnd Hdisj) as [Hq Hkeep].
  rewrite Hq, Hkeep, Hc, Ha. by rewrite <- list_fmap_compose.
Qed.


(** ** spec.py: the last five lines, run again *)

Lemma prefixed_S (n : nat) (name : string) :
  prefixed (S n) name = prefixed n ("sparc_" +:+ name).
Proof. unfold prefixed. by rewrite Nat.iter_succ_r. Qed.









(* ================================================================== *)
(** * Further properties of the scripts                                 *)
(* ================================================================== *)

(** ** registers.py: outcomes of [make_limit_bitset] *)

Lemma outcome_bind_Ok {A B : Type} (a : A) (f : A → outcome B) :
  (Ok a ≫= f) = f a.
Proof. reflexivity. Qed.

Lemma list_index_from_least (x : Register) (l : list Register) (k r : nat) :
  list_index_from k l x = Ok r →
  ∃ i y, r = k + i ∧ l !! i = Some y ∧ reg_oid y = reg_oid x
         ∧ ∀ j z, j < i → l !! j = Some z → reg_oid z ≠ reg_oid x.
Proof.
  revert k. induction l as [|y l IH]; intros k; [done |].
  simpl. unfold reg_is.
  destruct (Nat.eqb_spec (reg_oid y) (reg_oid x)) as [Heq | Hne].
  - intros [= <-]. exists 0, y. repeat split; [lia | done |]. intros; lia.
  - intros (i & z & -> & Hz & Hid & Hleast)%IH. exists (S i), z.
    repeat split; [lia | done | done |].
    intros [|j] w Hj Hw; simpl in Hw; [by injection Hw as <- |].
    apply (Hleast j w); [lia | done].
Qed.

Lemma list_index_from_raises (x : Register) (l : list Register) (k : nat)
    (e : exn) :
  list_index_from k l x = Raised e →
  e = ValueError ∧ ∀ y, y ∈ l → reg_oid y ≠ reg_oid x.
Proof.
  revert k. induction l as [|y l IH]; intros k; simpl.
  - intros [= <-]. split; [done |]. intros y Hy. by apply elem_of_nil in Hy.
  - unfold reg_is.
    destruct (Nat.eqb_spec (reg_oid y) (reg_oid x)) as [Heq | Hne]; [done |].
    intros [-> Habsent]%IH. split; [done |].
    intros z [-> | Hz]%elem_of_cons; [done | by apply Habsent].
Qed.

Lemma limit_bucket_elsewhere cls register index res b :
  ¬ (b * 32 ≤ index < (b + 1) * 32) →
  ∃ res', limit_bucket cls register index res b = Ok res'.
Proof.
  intros Hout. unfold limit_bucket.
  destruct (Nat.leb_spec (b * 32) index), (Nat.ltb_spec index ((b + 1) * 32));
    cbn [andb]; first [lia | eauto].
Qed.

Lemma limit_bucket_unnamed cls register index res b :
  cls_name cls = None →
  b * 32 ≤ index < (b + 1) * 32 →
  limit_bucket cls register index res b = Raised (AttributeError "name").
Proof.
  intros Hn [Hlo Hhi]. unfold limit_bucket, get_name. rewrite Hn.
  apply Nat.leb_le in Hlo. apply Nat.ltb_lt in Hhi. by rewrite Hlo, Hhi.
Qed.

Lemma for_each_limit_bucket_elsewhere cls register index res (bs : list nat) :
  (∀ b, b ∈ bs → ¬ (b * 32 ≤ index < (b + 1) * 32)) →
  ∃ res', for_each (limit_bucket cls register index) res bs = Ok res'.
Proof.
  revert res. induction bs as [|b bs IH]; intros res Hout; simpl; [eauto |].
  destruct (limit_bucket_elsewhere cls register index res b) as [res1 ->].
  { apply Hout. by left. }
  simpl. apply IH. intros b' Hb'. apply Hout. by right.
Qed.

Lemma make_limit_bitset_unnamed cls register index :
  cls_name cls = None →
  list_index (cls_registers cls) register = Ok index →
  make_limit_bitset cls register = Raised (AttributeError "name").
Proof.
  intros Hn Hidx. unfold make_limit_bitset. rewrite Hidx, outcome_bind_Ok.
  apply list_index_from_least in Hidx as (i & y & -> & Hi & _).
  apply lookup_lt_Some in Hi. rewrite Nat.add_0_l.
  set (N := length (cls_registers cls)) in *.
  pose proof (Nat.div_mod_eq i 32) as Hdm.
  pose proof (Nat.mod_upper_bound i 32 ltac:(lia)) as Hm.
  pose proof (Nat.div_mod_eq (N + 31) 32) as HdN.
  pose proof (Nat.mod_upper_bound (N + 31) 32 ltac:(lia)) as HmN.
  replace ((N + 31) / 32) with (i / 32 + S ((N + 31) / 32 - S (i / 32)))
    by lia.
  rewrite seq_app, for_each_app.
  destruct (for_each_limit_bucket_elsewhere cls register i "{ " (seq 0 (i / 32)))
    as [res1 ->].
  { intros b Hb%elem_of_seq. lia. }
  rewrite outcome_bind_Ok. cbn [seq for_each].
  rewrite limit_bucket_unnamed; [done | done | lia].
Qed.

(** X1: [make_limit_bitset] returns a text exactly when the register
    object occurs in the class and the class has been named by [regclass];
    it raises [ValueError] exactly when the object does not occur in the
    class (a register of the same name does not count), and
    [AttributeError] exactly when the object occurs but the class has no
    [name]. *)
Theorem make_limit_bitset_outcome (c : RegClass) (r : Register) :
  ((∃ text, make_limit_bitset c r = Ok text)
   ↔ (∃ y, y ∈ cls_registers c ∧ reg_oid y = reg_oid r)
     ∧ is_Some (cls_name c))
  ∧ (make_limit_bitset c r = Raised ValueError
     ↔ ∀ y, y ∈ cls_registers c → reg_oid y ≠ reg_oid r)
  ∧ (make_limit_bitset c r = Raised (AttributeError "name")
     ↔ (∃ y, y ∈ cls_registers c ∧ reg_oid y = reg_oid r)
       ∧ cls_name c = None).
Proof.
  destruct (list_index (cls_registers c) r) as [i|e] eqn:Hidx.
  - assert (Hin : ∃ y, y ∈ cls_registers c ∧ reg_oid y = reg_oid r).
    { apply list_index_from_least in Hidx as (j & y & _ & Hy & Hid & _).
      exists y. split; [| done]. apply list_elem_of_lookup. eauto. }
    assert (Hnot : ¬ ∀ y, y ∈ cls_registers c → reg_oid y ≠ reg_oid r).
    { destruct Hin as (y & Hy & Hid). intros Hall. by apply (Hall y). }
    destruct (cls_name c) as [n|] eqn:Hn.
    + rewrite (make_limit_bitset_literal c n r i Hn Hidx).
      split; [| split].
      * split; [by intros _ | by eauto].
      * split; [done | by intros ?].
      * split; [done | by intros [_ ?]].
    + rewrite (make_limit_bitset_unnamed c r i Hn Hidx).
      split; [| split].
      * split; [by intros [? ?] | by intros [_ [? ?]]].
      * split; [done | by intros ?].
      * split; [by intros _ | done].
  - apply list_index_from_raises in Hidx as Hraise. destruct Hraise as [-> Habsent].
    assert (Hrun : make_limit_bitset c r = Raised ValueError).
    { unfold make_limit_bitset. by rewrite Hidx. }
    rewrite Hrun. split; [| split].
    + split; [by intros [? ?] |].
      intros [(y & Hy & Hid) _]. by destruct (Habsent y Hy).
    + split; [by intros _ | done].
    + split; [done |]. intros [(y & Hy & Hid) _]. by destruct (Habsent y Hy).
Qed.

(** A register of the same name that is another object is not found, and a
    class that never went through [regclass] has no name to print. *)
Lemma make_limit_bitset_outcome_examples :
  make_limit_bitset gp {| reg_oid := 99; reg_name := "sp" |} = Raised ValueError
  ∧ make_limit_bitset undecorated a1 = Raised (AttributeError "name")
  ∧ make_limit_bitset twice a1 = Ok "{ (1 << REG_TWICE_A) }".
Proof.
  destruct (make_limit_bitset_outcome gp {| reg_oid := 99; reg_name := "sp" |})
    as (_ & Hvalue & _).
  destruct (make_limit_bitset_outcome undecorated a1) as (_ & _ & Hattr).
  split; [| split].
  - apply Hvalue. intros y Hy. simpl.
    repeat (apply elem_of_cons in Hy as [-> | Hy]; [simpl; lia |]).
    by apply elem_of_nil in Hy.
  - apply Hattr. split; [| reflexivity].
    exists a1. split; [| reflexivity]. simpl. rewrite !elem_of_cons. tauto.
  - reflexivity.
Defined.

(** ** registers.py: [reg], [regclass] and the class statements *)

Lemma M_bind_Ok {A B : Type} (m : M A) (f : A → M B) (st st' : pystate) (a : A) :
  m st = Ok (a, st') → (m ≫= f) st = f a st'.
Proof. intros Hm. unfold mbind, M_bind. by rewrite Hm. Qed.

(** X2: [map(reg, names)] creates one register per name, in the order of
    the names, each a new object: the identities are consecutive from the
    allocator on, hence pairwise different and different from every object
    created before; the registry of classes is not touched. *)
Theorem map_reg_fresh (names : list string) (st : pystate) :
  ∃ regs,
    mapM reg names st
    = Ok (regs, {| register_classes := register_classes st;
                   next_oid := next_oid st + length names |})
    ∧ reg_name <$> regs = names
    ∧ reg_oid <$> regs = seq (next_oid st) (length names)
    ∧ NoDup (reg_oid <$> regs)
    ∧ ∀ r, r ∈ regs → (next_oid st ≤ reg_oid r)%nat.
Proof.
  assert (Hrun : ∃ regs,
    mapM reg names st
    = Ok (regs, {| register_classes := register_classes st;
                   next_oid := next_oid st + length names |})
    ∧ reg_name <$> regs = names
    ∧ reg_oid <$> regs = seq (next_oid st) (length names)).
  { revert st. induction names as [|name names IH]; intros st.
    - exists []. repeat split. simpl. destruct st. simpl.
      by rewrite Nat.add_0_r.
    - destruct (IH {| register_classes := register_classes st;
                      next_oid := S (next_oid st) |})
        as (regs & Hregs & Hnames & Hoids).
      exists ({| reg_oid := next_oid st; reg_name := name |} :: regs).
      split; [| split].
      + change (mapM reg (name :: names))
          with (reg name ≫= λ y, mapM reg names ≫= λ ys, mret (y :: ys)).
        rewrite (M_bind_Ok _ _ st _ _ eq_refl).
        rewrite (M_bind_Ok _ _ _ _ _ Hregs). simpl.
        unfold mret, M_ret. do 3 f_equal. lia.
      + rewrite fmap_cons, Hnames. reflexivity.
      + rewrite fmap_cons, Hoids. reflexivity. }
  destruct Hrun as (regs & Hregs & Hnames & Hoids).
  exists regs. repeat split; try done.
  - rewrite Hoids. apply NoDup_seq.
  - intros r Hr.
    assert (Hin : reg_oid r ∈ reg_oid <$> regs) by (by apply list_elem_of_fmap_2).
    rewrite Hoids in Hin. apply elem_of_seq in Hin. lia.
Qed.


Lemma index_of_distinct_object (regs : list Register) (i : nat) (r : Register) :
  NoDup (reg_oid <$> regs) →
  regs !! i = Some r →
  list_index regs r = Ok i.
Proof.
  intros Hnd Hi. apply (list_index_from_first r regs 0 i Hi).
  intros j y Hj Hy Heq. assert (j = i); [| lia].
  apply (NoDup_lookup _ j i (reg_oid r) Hnd);
    rewrite list_lookup_fmap; [by rewrite Hy; simpl; f_equal | by rewrite Hi].
Qed.



(** ** beops.py: what a requirement holds *)

(** X4: a requirement returned by [singlereq] or [producestackreq] is of
    the kind of the function that made it, holds the class passed in and a
    register that is in that class and has the name asked for; it is never
    the sentinel [noreq]; and [producestackreq] raises exactly what
    [singlereq] raises, and returns exactly when [singlereq] does. *)
Theorem requirement_well_formed (c : RegClass) (regname : string) :
  (∀ req, singlereq c regname = Ok req →
     req_kind_of req = kind_singlereq
     ∧ req_cls req = Some c
     ∧ ∃ r, req_reg req = Some r ∧ r ∈ cls_registers c
            ∧ reg_name r = regname)
  ∧ (∀ req, producestackreq c regname = Ok req →
       req_kind_of req = kind_producestackreq
       ∧ req_cls req = Some c
       ∧ (∃ r, req_reg req = Some r ∧ r ∈ cls_registers c
               ∧ reg_name r = regname)
       ∧ singlereq c regname
         = Ok {| req_kind_of := kind_singlereq;
                 req_cls := req_cls req; req_reg := req_reg req |})
  ∧ (∀ e, producestackreq c regname = Raised e
          ↔ singlereq c regname = Raised e)
  ∧ singlereq c regname ≠ Ok noreq
  ∧ producestackreq c regname ≠ Ok noreq.
Proof.
  unfold producestackreq, singlereq.
  destruct (scan_registers (cls_registers c) regname) as [r|] eqn:Hscan.
  - apply scan_registers_Some in Hscan as (i & Hi & Hr & _).
    assert (Hin : r ∈ cls_registers c) by (apply list_elem_of_lookup; eauto).
    split; [| split; [| split; [| split]]].
    + intros req [= <-]. simpl. repeat split. by exists r.
    + intros req [= <-]. simpl. repeat split. by exists r.
    + intros e. by split.
    + done.
    + done.
  - destruct (get_name c) as [n|e']; simpl.
    + split; [done |]. split; [done |]. split; [by intros e | done].
    + split; [done |]. split; [done |]. split; [by intros e | done].
Qed.

Lemma requirement_well_formed_gp :
  ∃ req,
    producestackreq gp "sp" = Ok req
    ∧ req_kind_of req = kind_producestackreq
    ∧ req_cls req = Some gp
    ∧ req_reg req = Some sp
    ∧ sp ∈ cls_registers gp.
Proof.
  destruct (requirement_well_formed gp "sp") as (_ & Hstack & _).
  destruct (producestackreq gp "sp") as [req|e] eqn:Hreq; [| by vm_compute in Hreq].
  exists req. destruct (Hstack req eq_refl) as (Hkind & Hcls & (r & Hr & Hin & _) & _).
  split; [done |]. split; [done |]. split; [done |].
  vm_compute in Hreq. injection Hreq as <-. simpl in Hr. injection Hr as <-.
  split; [reflexivity | exact Hin].
Defined.

(** X5: on a class that never went through [regclass] the two functions
    still return the requirement for a name the class has; for a name it
    does not have they raise [AttributeError], the message of the intended
    exception reading [regclass.name]. *)
Theorem requirement_on_unnamed_class (c : RegClass) (regname : string) :
  cls_name c = None →
  (regname ∈ reg_name <$> cls_registers c →
     ∃ r, r ∈ cls_registers c ∧ reg_name r = regname
          ∧ singlereq c regname
            = Ok {| req_kind_of := kind_singlereq;
                    req_cls := Some c; req_reg := Some r |}
          ∧ producestackreq c regname
            = Ok {| req_kind_of := kind_producestackreq;
                    req_cls := Some c; req_reg := Some r |})
  ∧ (regname ∉ reg_name <$> cls_registers c →
     singlereq c regname = Raised (AttributeError "name")
     ∧ producestackreq c regname = Raised (AttributeError "name")).
Proof.
  intros Hn. unfold producestackreq, singlereq, get_name. rewrite Hn.
  destruct (scan_registers (cls_registers c) regname) as [r|] eqn:Hscan.
  - apply scan_registers_Some in Hscan as (i & Hi & Hr & _).
    assert (Hin : r ∈ cls_registers c) by (apply list_elem_of_lookup; eauto).
    split.
    + intros _. exists r. by repeat split.
    + intros Hnot. exfalso. apply Hnot. rewrite <- Hr.
      by apply list_elem_of_fmap_2.
  - split; [| done]. intros Hin. by apply scan_registers_None in Hscan.
Qed.

Lemma requirement_on_undecorated :
  singlereq undecorated "a"
  = Ok {| req_kind_of := kind_singlereq;
          req_cls := Some undecorated; req_reg := Some a0 |}
  ∧ singlereq undecorated "b" = Raised (AttributeError "name")
  ∧ producestackreq undecorated "b" = Raised (AttributeError "name").
Proof.
  destruct (requirement_on_unnamed_class undecorated "b" eq_refl)
    as [_ Hmissing].
  split; [reflexivity |]. apply Hmissing. vm_compute. not_among.
Defined.

(** X6: in a named class whose registers are distinct objects, the register
    a requirement from [singlereq] is bound to is the one at the least
    index carrying the name, and [make_limit_bitset] called with that
    register yields the literal for that index under the constant of the
    class and of the name asked for. *)
Theorem requirement_register_limit_bitset
    (c : RegClass) (n regname : string) (req : RegisterReq) :
  cls_name c = Some n →
  NoDup (reg_oid <$> cls_registers c) →
  singlereq c regname = Ok req →
  ∃ i r,
    req_reg req = Some r
    ∧ cls_registers c !! i = Some r
    ∧ (∀ j y, j < i → cls_registers c !! j = Some y → reg_name y ≠ regname)
    ∧ make_limit_bitset c r
      = Ok (render_literal
              (limit_words (reg_constant n regname) i
                 ((length (cls_registers c) + 31) / 32))).
Proof.
  intros Hn Hnd. unfold singlereq.
  destruct (scan_registers (cls_registers c) regname) as [r|] eqn:Hscan.
  - intros [= <-]. apply scan_registers_Some in Hscan as (i & Hi & Hr & Hleast).
    exists i, r. repeat split; [done | done |].
    rewrite <- Hr. apply make_limit_bitset_literal; [done |].
    by apply index_of_distinct_object.
  - unfold get_name. by rewrite Hn.
Qed.

Lemma requirement_register_limit_bitset_gp :
  ∃ req r,
    singlereq gp "sp" = Ok req
    ∧ req_reg req = Some r
    ∧ make_limit_bitset gp r = Ok "{ (1 << REG_GP_SP) }".
Proof.
  destruct (singlereq gp "sp") as [req|e] eqn:Hreq; [| by vm_compute in Hreq].
  destruct (requirement_register_limit_bitset gp "gp" "sp" req)
    as (i & r & Hr & Hi & _ & Hbits).
  - reflexivity.
  - replace (reg_oid <$> cls_registers gp) with (seq 0 32) by reflexivity.
    apply NoDup_seq.
  - exact Hreq.
  - exists req, r. split; [done |]. split; [done |].
    vm_compute in Hreq. injection Hreq as <-. simpl in Hr. injection Hr as <-.
    reflexivity.
Defined.

(** X7: the text [make_limit_bitset] returns depends on the class only
    through the number of its registers and its name in upper case, and on
    the register only through its index and its name in upper case: mode,
    flags and the other registers' names play no part, and names that
    differ in case only give the same text. *)
Theorem make_limit_bitset_reads_only
    (c c' : RegClass) (n n' : string) (r r' : Register) (i : nat) :
  cls_name c = Some n →
  cls_name c' = Some n' →
  upper n = upper n' →
  upper (reg_name r) = upper (reg_name r') →
  length (cls_registers c) = length (cls_registers c') →
  list_index (cls_registers c) r = Ok i →
  list_index (cls_registers c') r' = Ok i →
  make_limit_bitset c r = make_limit_bitset c' r'.
Proof.
  intros Hn Hn' Hupper Hreg Hlen Hi Hi'.
  rewrite (make_limit_bitset_literal c n r i Hn Hi).
  rewrite (make_limit_bitset_literal c' n' r' i Hn' Hi').
  unfold reg_constant. by rewrite Hupper, Hreg, Hlen.
Qed.

Lemma make_limit_bitset_reads_only_twice :
  make_limit_bitset twice a0
  = make_limit_bitset TWICE {| reg_oid := 70; reg_name := "A" |}
  ∧ make_limit_bitset twice a0 = Ok "{ (1 << REG_TWICE_A) }".
Proof.
  split; [| reflexivity].
  by apply (make_limit_bitset_reads_only twice TWICE "twice" "TWICE"
              a0 {| reg_oid := 70; reg_name := "A" |} 0).
Defined.

(** ** spec.py: the renaming loop over any list of references *)

Lemma qualified_qualify (k : nat) (node : NodeSpec) :
  qualified k (qualify node) = qualified (S k) node.
Proof.
  unfold qualified, qualify. cbn [node_name node_attrs].
  by rewrite (prefixed_S k).
Qed.

Lemma qualified_0 (node : NodeSpec) : qualified 0 node = node.
Proof. by destruct node. Qed.

Lemma rename_nodes_lookup (nodes : list nat) (store : gmap nat NodeSpec) (o : nat) :
  rename_nodes nodes store !! o
  = qualified (count_occ Nat.eq_dec nodes o) <$> store !! o.
Proof.
  revert store. induction nodes as [|x nodes IH]; intros store.
  - simpl. destruct (store !! o) as [node|]; simpl; [| done].
    by rewrite qualified_0.
  - rewrite rename_nodes_cons, IH.
    destruct (decide (x = o)) as [-> | Hne].
    + rewrite count_occ_cons_eq by done. rewrite lookup_alter_eq.
      destruct (store !! o) as [node|]; simpl; [| done].
      by rewrite qualified_qualify.
    + rewrite count_occ_cons_neq by done. by rewrite lookup_alter_ne.
Qed.

(** X8: for any list of references, repeated or not, the loop leaves every
    object of the store in place, with its attributes as they were and its
    name prefixed once for each time the object is referenced from the
    list; objects not referenced keep their name, and no object is added
    or removed. *)
Theorem rename_loop_counts_references
    (nodes : list nat) (store : gmap nat NodeSpec) :
  (∀ o, rename_nodes nodes store !! o
        = qualified (count_occ Nat.eq_dec nodes o) <$> store !! o)
  ∧ (∀ o node, store !! o = Some node → o ∉ nodes →
       rename_nodes nodes store !! o = Some node)
  ∧ (∀ o node', rename_nodes nodes store !! o = Some node' →
       ∃ node, store !! o = Some node
               ∧ node_attrs node' = node_attrs node
               ∧ node_name node'
                 = prefixed (count_occ Nat.eq_dec nodes o) (node_name node))
  ∧ dom (rename_nodes nodes store) = dom store.
Proof.
  split; [apply rename_nodes_lookup |]. split; [| split].
  - intros o node Ho Hnot. rewrite rename_nodes_lookup, Ho. simpl.
    rewrite list_elem_of_In in Hnot.
    apply (count_occ_not_In Nat.eq_dec) in Hnot.
    by rewrite Hnot, qualified_0.
  - intros o node'. rewrite rename_nodes_lookup.
    destruct (store !! o) as [node|]; simpl; [| done].
    intros [= <-]. by exists node.
  - apply set_eq. intros o. rewrite !elem_of_dom, rename_nodes_lookup.
    by rewrite fmap_is_Some.
Qed.

Lemma rename_loop_counts_twice :
  ∃ node',
    rename_nodes [1; 0; 1] two_nodes !! 1 = Some node'
    ∧ node_name node' = "sparc_sparc_Ba"
    ∧ node_attrs node' = ∅.
Proof.
  destruct (rename_loop_counts_references [1; 0; 1] two_nodes)
    as (_ & _ & Hcount & _).
  destruct (rename_nodes [1; 0; 1] two_nodes !! 1) as [node'|] eqn:Hnode;
    [| by vm_compute in Hnode].
  exists node'. split; [done |].
  destruct (Hcount 1 node' Hnode) as (node & Hstore & Hattrs & Hname).
  vm_compute in Hstore. injection Hstore as <-.
  rewrite Hname, Hattrs. split; reflexivity.
Defined.

(** X9: the store the loop leaves does not depend on the order of the
    references in [nodes]. *)
Theorem rename_loop_order_irrelevant
    (nodes nodes' : list nat) (store : gmap nat NodeSpec) :
  nodes ≡ₚ nodes' →
  rename_nodes nodes store = rename_nodes nodes' store.
Proof.
  intros Hperm. apply map_eq. intros o. rewrite !rename_nodes_lookup.
  by rewrite (proj1 (Permutation_count_occ Nat.eq_dec nodes nodes') Hperm o).
Qed.

Lemma rename_loop_order_two_nodes :
  rename_nodes [0; 1] two_nodes = rename_nodes [1; 0] two_nodes
  ∧ node_name <$> deref (rename_nodes [1; 0] two_nodes) [0; 1]
    = ["sparc_JumpBase"; "sparc_Ba"].
Proof.
  split; [| by vm_compute].
  apply rename_loop_order_irrelevant. apply Permutation_swap.
Defined.

(** X10: opcodes of [nodes] that have different names before the loop have
    different names after it. *)
Theorem rename_loop_keeps_names_apart
    (nodes : list nat) (store : gmap nat NodeSpec) :
  NoDup nodes →
  NoDup (node_name <$> deref store nodes) →
  NoDup (node_name <$> deref (rename_nodes nodes store) nodes).
Proof.
  intros Hnd Hnames.
  destruct (rename_loop_concrete_frame nodes [] store Hnd) as [-> _].
  { intros o Ho. by apply elem_of_nil in Ho. }
  rewrite <- list_fmap_compose.
  replace (node_name ∘ qualify)
    with (String.append "sparc_" ∘ node_name) by done.
  rewrite list_fmap_compose. by apply (NoDup_fmap_2 _).
Qed.

Lemma rename_loop_keeps_two_nodes_apart :
  NoDup (node_name <$> deref (rename_nodes [0; 1] two_nodes) [0; 1]).
Proof.
  apply rename_loop_keeps_names_apart.
  - apply NoDup_cons. split; [| apply NoDup_singleton].
    intros Hin. apply list_elem_of_singleton in Hin. lia.
  - vm_compute. apply NoDup_cons. split; [| apply NoDup_singleton].
    intros Hin. apply list_elem_of_singleton in Hin. discriminate Hin.
Defined.

(** ** spec.py: attribute lookup along the base chain *)

(** X11: [C.f] is the binding of [f] in the last dictionary of the base
    chain of [C], root first, that binds [f]: the nearest class decides,
    whatever the classes further up hold.  The lookup fails only when no
    class of the chain binds [f], and a class statement never removes an
    attribute its base has. *)
Theorem getattr_nearest_binding (c : pyclass) (f : string) :
  (∀ v, getattr c f = Some v
        ↔ ∃ pre dict post,
            base_chain c = (pre ++ dict :: post)%list
            ∧ dict !! f = Some v
            ∧ ∀ d, d ∈ post → d !! f = None)
  ∧ (getattr c f = None ↔ ∀ d, d ∈ base_chain c → d !! f = None)
  ∧ (∀ pyname dict,
       is_Some (getattr c f) → is_Some (getattr (PyClass pyname c dict) f)).
Proof.
  assert (Hnone : ∀ c, getattr c f = None
                       ↔ ∀ d, d ∈ base_chain c → d !! f = None).
  { clear c. induction c as [|pyname base IH dict]; simpl.
    - split; [| done]. intros _ d Hd. by apply elem_of_nil in Hd.
    - destruct (dict !! f) as [v|] eqn:Hf.
      + split; [done |]. intros Hall.
        rewrite <- Hf. apply Hall. apply elem_of_app. right. by left.
      + rewrite IH. split.
        * intros Hall d [Hd | Hd%list_elem_of_singleton]%elem_of_app;
            [by apply Hall | by subst].
        * intros Hall d Hd. apply Hall. apply elem_of_app. by left. }
  split; [| split; [apply Hnone |]].
  - induction c as [|pyname base IH dict]; intros v; simpl.
    + split; [done |]. intros (pre & dict & post & Hchain & _).
      by destruct pre.
    + destruct (dict !! f) as [w|] eqn:Hf.
      * split.
        -- intros [= <-]. exists (base_chain base), dict, [].
           split; [done |]. split; [done |].
           intros d Hd. by apply elem_of_nil in Hd.
        -- intros (pre & d & post & Hchain & Hd & Hpost).
           destruct post as [|x post _] using rev_ind.
           ++ apply app_inj_tail in Hchain as [_ <-]. congruence.
           ++ rewrite app_comm_cons, app_assoc in Hchain.
              apply app_inj_tail in Hchain as [_ <-].
              rewrite Hpost in Hf; [done |].
              apply elem_of_app. right. by left.
      * rewrite IH. split.
        -- intros (pre & d & post & Hchain & Hd & Hpost).
           exists pre, d, (post ++ [dict])%list. rewrite Hchain.
           split; [by rewrite <- app_assoc |]. split; [done |].
           intros d' [Hd' | Hd'%list_elem_of_singleton]%elem_of_app;
             [by apply Hpost | by subst].
        -- intros (pre & d & post & Hchain & Hd & Hpost).
           destruct post as [|x post _] using rev_ind.
           ++ apply app_inj_tail in Hchain as [_ <-]. congruence.
           ++ rewrite app_comm_cons, app_assoc in Hchain.
              apply app_inj_tail in Hchain as [Hchain <-].
              exists pre, d, post. split; [done |]. split; [done |].
              intros d' Hd'. apply Hpost. apply elem_of_app. by left.
  - intros pyname dict [v Hv]. simpl. rewrite Hv. by destruct (dict !! f).
Qed.

Lemma getattr_nearest_binding_SwitchJmp :
  ∃ c, SwitchJmp = Ok c
       ∧ getattr c "out_reqs" = Some (VStr "...")
       ∧ getattr c "pinned" = Some (VStr "yes")
       ∧ getattr c "emit" = None.
Proof.
  destruct SwitchJmp as [c|e] eqn:Hc; [| by vm_compute in Hc].
  exists c. split; [done |].
  destruct (getattr_nearest_binding c "emit") as (_ & Hnone & _).
  vm_compute in Hc. injection Hc as <-.
  split; [by vm_compute |]. split; [by vm_compute |].
  apply Hnone. intros d Hd. simpl in Hd.
  repeat (apply elem_of_cons in Hd as [-> | Hd]; [by vm_compute |]).
  by apply elem_of_nil in Hd.
Defined.

(** ** spec.py and beops.py: a requirement call inside a class body *)

(** X12: the class statement of [AddSP] with any register name in its two
    requirement calls creates the class exactly when [gp] has a register of
    that name, [in_reqs] then holding the requirement bound to a register
    of that name; for any other name the exception of [singlereq] leaves
    the class statement and no class is created. *)
Theorem AddSP_needs_a_register_of_gp (regname : string) :
  (regname ∈ reg_name <$> cls_registers gp →
     ∃ c r,
       AddSP_for regname = Ok c
       ∧ r ∈ cls_registers gp ∧ reg_name r = regname
       ∧ getattr c "in_reqs"
         = Some (VTuple [VList [
             VReq {| req_kind_of := kind_singlereq;
                     req_cls := Some gp; req_reg := Some r |};
             VRegClass gp ]])
       ∧ getattr c "out_reqs"
         = Some (VTuple [VList [
             VReq {| req_kind_of := kind_producestackreq;
                     req_cls := Some gp; req_reg := Some r |} ]]))
  ∧ (regname ∉ reg_name <$> cls_registers gp →
     AddSP_for regname
     = Raised (Exception ("No register named " +:+ regname
                          +:+ " in regclass gp")))
  ∧ AddSP_for "sp" = AddSP.
Proof.
  split; [| split; [| reflexivity]].
  - intros Hin.
    destruct (scan_registers (cls_registers gp) regname) as [r|] eqn:Hscan;
      [| by apply scan_registers_None in Hscan].
    assert (Hsingle : singlereq gp regname
                      = Ok {| req_kind_of := kind_singlereq;
                              req_cls := Some gp; req_reg := Some r |})
      by (unfold singlereq; by rewrite Hscan).
    assert (Hstack : producestackreq gp regname
                     = Ok {| req_kind_of := kind_producestackreq;
                             req_cls := Some gp; req_reg := Some r |})
      by (unfold producestackreq; by rewrite Hsingle).
    apply scan_registers_Some in Hscan as (i & Hi & Hr & _).
    destruct (AddSP_for regname) as [c|e] eqn:Hc.
    + exists c, r. split; [done |].
      split; [apply list_elem_of_lookup; eauto |]. split; [done |].
      unfold AddSP_for, AddSP_body_for, call_singlereq, call_producestackreq
        in Hc.
      rewrite Hsingle, Hstack in Hc. vm_compute in Hc. injection Hc as <-.
      split; by vm_compute.
    + unfold AddSP_for, AddSP_body_for, call_singlereq, call_producestackreq
        in Hc.
      rewrite Hsingle, Hstack in Hc. by vm_compute in Hc.
  - intros Hnot. apply scan_registers_None in Hnot.
    assert (Hsingle : singlereq gp regname
                      = Raised (Exception ("No register named " +:+ regname
                                           +:+ " in regclass gp")))
      by (unfold singlereq; by rewrite Hnot).
    unfold AddSP_for, AddSP_body_for, call_singlereq. rewrite Hsingle.
    reflexivity.
Qed.

Lemma AddSP_misspelt :
  AddSP_for "sq" = Raised (Exception "No register named sq in regclass gp")
  ∧ ∃ c, AddSP_for "fp" = Ok c.
Proof.
  destruct (AddSP_needs_a_register_of_gp "sq") as (_ & Hfail & _).
  destruct (AddSP_needs_a_register_of_gp "fp") as (Hok & _ & _).
  split.
  - rewrite Hfail; [reflexivity |]. vm_compute. not_among.
  - destruct Hok as (c & _ & Hc & _); [| by exists c].
    apply (list_elem_of_fmap_2 reg_name _ {| reg_oid := 30; reg_name := "fp" |}).
    apply list_elem_of_lookup. by exists 30.
Defined.
